(** * ts-ev: the [Emitter] class of [src/index.ts]

    A shallow embedding of the registration / removal / dispatch engine of
    the typed event emitter, and the properties of it that the
    specification states.

    Modelling decisions.
    - A listener is a JavaScript function object.  The emitter only ever
      compares listeners with [===] (reference identity) and calls them, so
      a listener is represented by the natural number that names the
      function object; what the function does when called is given by the
      section variable [run] below.
    - [_evinfo] is a plain object used as a dictionary from event names to
      arrays of [[listener, opts]] pairs: a [gmap string (list entry)].
      Event names are assumed not to be names of [Object.prototype]
      members (the only keys for which [this._evinfo[ev]] is truthy without
      having been assigned).
    - Arrays are mutated in place in the source ([push], [unshift],
      [splice]); since an array is reachable only through [_evinfo], the
      mutation is the update of the dictionary at that key.  The one place
      where a second reference matters is [emit], which iterates over a
      copy ([[...this._evinfo[ev]]]): the copy is the list bound before the
      loop, the live array is the one in the threaded state. *)

From stdpp Require Import gmap strings list fin_maps.
From Stdlib Require Import ZArith Lia.

Local Open Scope Z_scope.

(** ** JavaScript values and arrays *)

(** The values carried by a payload ([...data] of [emit]). *)
Inductive value : Type :=
  | VUndefined
  | VBool (b : bool)
  | VNum (n : Z)
  | VStr (s : string).

Definition payload : Type := list value.

(** A function object, named by its identity. *)
Definition listener : Type := nat.

(** Truthiness of an optional boolean property ([protect?: boolean]). *)
Definition truthy (b : option bool) : bool :=
  match b with
  | Some true => true
  | _ => false
  end.

Section Arrays.
Context {A : Type}.

(** [Array.prototype.findIndex]: index of the first element satisfying
    [p], or [-1]. *)
Fixpoint findIndex_from (p : A → bool) (l : list A) (i : Z) : Z :=
  match l with
  | [] => -1
  | x :: l' => if p x then i else findIndex_from p l' (i + 1)
  end.

Definition findIndex (p : A → bool) (l : list A) : Z := findIndex_from p l 0.

(** [Array.prototype.splice(start, deleteCount)] without inserted items:
    a negative [start] counts from the end of the array. *)
Definition splice (l : list A) (start deleteCount : Z) : list A :=
  let len := Z.of_nat (length l) in
  let actualStart :=
    if start <? 0 then Z.max (len + start) 0 else Z.min start len in
  let actualDeleteCount := Z.min (Z.max deleteCount 0) (len - actualStart) in
  take (Z.to_nat actualStart) l
    ++ drop (Z.to_nat (actualStart + actualDeleteCount)) l.

(** [arr.push(x)] and [arr.unshift(x)]. *)
Definition push (l : list A) (x : A) : list A := l ++ [x].
Definition unshift (l : list A) (x : A) : list A := x :: l.
End Arrays.

(** ** The listener table *)

(** The [opts] object stored with a listener. *)
Record options : Type := Options {
  opt_once : bool;
  opt_protect : option bool;
  opt_filter : option (payload → bool);
}.

(** The [options?] argument of the registration methods; an omitted
    argument is [no_options], since spreading [undefined] adds nothing. *)
Record reg_options : Type := RegOptions {
  reg_filter : option (payload → bool);
  reg_protect : option bool;
}.

Definition no_options : reg_options := RegOptions None None.

Definition entry : Type := listener * options.

Abbreviation evinfo := (gmap string (list entry)).

(** [{ once: o, ...options }] *)
Definition spread_options (o : bool) (uo : reg_options) : options :=
  Options o (reg_protect uo) (reg_filter uo).

(** [{ once: true, ...listenerOrOptions, protect: true }] *)
Definition promise_options (uo : reg_options) : options :=
  Options true (Some true) (reg_filter uo).

(** [if (info) info.push(e); else this._evinfo[ev] = [e];] *)
Definition append_entry (ev : string) (e : entry) (t : evinfo) : evinfo :=
  match t !! ev with
  | Some info => <[ev := push info e]> t
  | None => <[ev := [e]]> t
  end.

(** [if (info) info.unshift(e); else this._evinfo[ev] = [e];] *)
Definition prepend_entry (ev : string) (e : entry) (t : evinfo) : evinfo :=
  match t !! ev with
  | Some info => <[ev := unshift info e]> t
  | None => <[ev := [e]]> t
  end.

Definition on (ev : string) (l : listener) (uo : reg_options) (t : evinfo) : evinfo :=
  append_entry ev (l, spread_options false uo) t.

Definition prependOn (ev : string) (l : listener) (uo : reg_options) (t : evinfo) : evinfo :=
  prepend_entry ev (l, spread_options false uo) t.

(** [once(ev, listener, options?)]: the branch
    [typeof listenerOrOptions === "function"]. *)
Definition once (ev : string) (l : listener) (uo : reg_options) (t : evinfo) : evinfo :=
  append_entry ev (l, spread_options true uo) t.

(** [once(ev, options?)]: the promise branch.  [shim] is the function
    object [(...data) => resolve(data)] that the call creates. *)
Definition once_promise (ev : string) (shim : listener) (uo : reg_options)
    (t : evinfo) : evinfo :=
  append_entry ev (shim, promise_options uo) t.

Definition prependOnce (ev : string) (l : listener) (uo : reg_options) (t : evinfo) : evinfo :=
  prepend_entry ev (l, spread_options true uo) t.

Definition prependOnce_promise (ev : string) (shim : listener) (uo : reg_options)
    (t : evinfo) : evinfo :=
  prepend_entry ev (shim, promise_options uo) t.

(** [([l]) => l === c] *)
Definition holds (c : listener) (e : entry) : bool := bool_decide (e.1 = c).

(** [cbs.splice(cbs.findIndex(([l]) => l === c), 1)] *)
Definition splice_listener (c : listener) (cbs : list entry) : list entry :=
  splice cbs (findIndex (holds c) cbs) 1.

(** [if (cbs.length === 0) delete this._evinfo[ev];] after [cbs] has been
    changed in place. *)
Definition store (ev : string) (cbs : list entry) (t : evinfo) : evinfo :=
  match cbs with
  | [] => delete ev t
  | _ => <[ev := cbs]> t
  end.

(** [off(ev, listener)] *)
Definition off_listener (ev : string) (c : listener) (t : evinfo) : evinfo :=
  match t !! ev with
  | Some cbs => store ev (splice_listener c cbs) t
  | None => t
  end.

(** [for (const [cb, { protect }] of cbs) if (!protect) todel.push(cb);] *)
Definition todel (cbs : list entry) : list listener :=
  (filter (λ e : entry, negb (truthy (opt_protect e.2))) cbs).*1.

(** [off(ev)] *)
Definition off_event (ev : string) (t : evinfo) : evinfo :=
  match t !! ev with
  | Some cbs => store ev (foldl (λ acc cb, splice_listener cb acc) cbs (todel cbs)) t
  | None => t
  end.

(** [Object.keys(this._evinfo)].  The order in which the keys are listed
    plays no part: [off(ev)] changes the table at [ev] only. *)
Definition keys (t : evinfo) : list string := (map_to_list t).*1.

(** The method [off], with its two optional parameters.  In the last
    branch, [this.off(ev)] is called with a key and no listener: it takes
    the second branch, [off_event]. *)
Definition off (ev : option string) (c : option listener) (t : evinfo) : evinfo :=
  match ev, c with
  | Some ev, Some c => off_listener ev c t
  | Some ev, None => off_event ev t
  | None, _ => foldl (λ acc ev, off_event ev acc) t (keys t)
  end.

(** ** Dispatch *)

(** How a call of a listener ends. *)
Inductive outcome : Type :=
  | Returned
  | Thrown.

(** One call [cb(...data)] made by the loop of [emit], with how it ended. *)
Definition invocation : Type := listener * outcome.

(** [filter ? filter(data) : true] *)
Definition passes (data : payload) (o : options) : bool :=
  match opt_filter o with
  | Some f => f data
  | None => true
  end.

Section Dispatch.
(** Everything a listener can read or change besides the emitter. *)
Context {World : Type}.

(** The state a listener runs in: the rest of the program and the
    emitter's [_evinfo]. *)
Definition state : Type := World * evinfo.

(** The body of each function object: called with the payload, it changes
    the state (the table only through the emitter's own methods, since
    [_evinfo] is private) and returns or throws. *)
Variable run : listener → payload → state → outcome * state.

(** The [for ... of] loop of [emit] over the copied array.  A throwing
    listener ends the loop: the statement after the call is not reached and
    the remaining elements are not visited.  [this.off(ev, cb)] is called
    with both arguments: it takes the first branch of [off],
    [off_listener], on the table as it is at that moment. *)
Fixpoint emit_loop (ev : string) (data : payload) (snapshot : list entry)
    (s : state) : outcome * list invocation * state :=
  match snapshot with
  | [] => (Returned, [], s)
  | (cb, o) :: rest =>
      if passes data o then
        match run cb data s with
        | (Thrown, s1) => (Thrown, [(cb, Thrown)], s1)
        | (Returned, s1) =>
            let s2 := if opt_once o then (s1.1, off_listener ev cb s1.2) else s1 in
            let '(out, tr, s3) := emit_loop ev data rest s2 in
            (out, (cb, Returned) :: tr, s3)
        end
      else emit_loop ev data rest s
  end.

(** [emit(ev, ...data)]: how the call ends, the listener calls it made, in
    order, and the state it leaves. *)
Definition emit (ev : string) (data : payload) (s : state)
    : outcome * list invocation * state :=
  match s.2 !! ev with
  | Some cbs => emit_loop ev data cbs s
  | None => (Returned, [], s)
  end.

(** A call of a public method of the emitter. *)
Inductive call : Type :=
  | CallOn (ev : string) (l : listener) (uo : reg_options)
  | CallPrependOn (ev : string) (l : listener) (uo : reg_options)
  | CallOnce (ev : string) (l : listener) (uo : reg_options)
  | CallOncePromise (ev : string) (shim : listener) (uo : reg_options)
  | CallPrependOnce (ev : string) (l : listener) (uo : reg_options)
  | CallPrependOncePromise (ev : string) (shim : listener) (uo : reg_options)
  | CallOff (ev : option string) (c : option listener)
  | CallEmit (ev : string) (data : payload).

(** The state after a call, whether it returned or threw. *)
Definition perform (c : call) (s : state) : state :=
  match c with
  | CallOn ev l uo => (s.1, on ev l uo s.2)
  | CallPrependOn ev l uo => (s.1, prependOn ev l uo s.2)
  | CallOnce ev l uo => (s.1, once ev l uo s.2)
  | CallOncePromise ev shim uo => (s.1, once_promise ev shim uo s.2)
  | CallPrependOnce ev l uo => (s.1, prependOnce ev l uo s.2)
  | CallPrependOncePromise ev shim uo => (s.1, prependOnce_promise ev shim uo s.2)
  | CallOff ev c => (s.1, off ev c s.2)
  | CallEmit ev data => (emit ev data s).2
  end.

(** The states an emitter can be in: it is constructed with an empty
    table, its methods are called, and the rest of the program changes in
    between. *)
Inductive reachable : state → Prop :=
  | reachable_new (w : World) : reachable (w, ∅)
  | reachable_call (c : call) (s : state) : reachable s → reachable (perform c s)
  | reachable_world (w : World) (s : state) : reachable s → reachable (w, s.2).

(** Listeners that return normally and leave the table as it is. *)
Definition passive : Prop :=
  ∀ l data s, (run l data s).1 = Returned ∧ (run l data s).2.2 = s.2.
End Dispatch.

(** ** Vocabulary of the specification *)

(** No event name is mapped to an empty array. *)
Definition no_empty (t : evinfo) : Prop :=
  ∀ ev cbs, t !! ev = Some cbs → cbs ≠ [].

(** The listeners of the entries of [cbs] whose filter accepts [data], in
    the order of [cbs]. *)
Definition firing (data : payload) (cbs : list entry) : list listener :=
  (filter (λ e : entry, passes data e.2 = true) cbs).*1.

(** The entries registered for [ev]; none when the key is absent. *)
Definition entries (ev : string) (t : evinfo) : list entry :=
  default [] (t !! ev).

(** Removal of the first entry that holds [c], as the specification words
    [off(event, callback)]: nothing happens when no entry holds [c]. *)
Fixpoint remove_first (c : listener) (cbs : list entry) : list entry :=
  match cbs with
  | [] => []
  | e :: cbs' => if holds c e then cbs' else e :: remove_first c cbs'
  end.



(** The four registration methods taking a listener. *)
Inductive method : Type :=
  | On
  | PrependOn
  | Once
  | PrependOnce.

Definition register_by (ev : string) (l : listener) (t : evinfo)
    (r : method * reg_options) : evinfo :=
  match r.1 with
  | On => on ev l r.2 t
  | PrependOn => prependOn ev l r.2 t
  | Once => once ev l r.2 t
  | PrependOnce => prependOnce ev l r.2 t
  end.

(** The entries of [cbs] that hold [c], and their number. *)
Definition held (c : listener) (cbs : list entry) : list entry :=
  filter (λ e : entry, e.1 = c) cbs.

Definition count_holding (c : listener) (cbs : list entry) : nat :=
  length (held c cbs).

(** The number of occurrences of [c] in a list of listeners. *)
Definition occurrences (c : listener) (ls : list listener) : nat :=
  length (filter (λ x, x = c) ls).

Definition protected (e : entry) : Prop := truthy (opt_protect e.2) = true.

(** The listeners of the [once] entries of [cbs] whose filter accepts
    [data]: those for which the loop of [emit] calls [this.off(ev, cb)]. *)
Definition fired_once (data : payload) (cbs : list entry) : list listener :=
  (filter (λ e : entry, passes data e.2 = true ∧ opt_once e.2 = true) cbs).*1.




(** ** Statements of the specification that are examined as written *)

(** "If no entry matches, this is a no-op": the table after
    [off(ev, c)] is the table before. *)
Definition off_unmatched_is_noop (ev : string) (c : listener) (t : evinfo) : Prop :=
  entries ev t ≠ [] → c ∉ (entries ev t).*1 → off (Some ev) (Some c) t = t.

(** "A listener registered with [protect: true] is not removed by
    [off(event)] or [off()], but is removed by [off(event, thatCallback)]",
    for the entry [e] of the event [ev]. *)
Definition protection_as_stated (ev : string) (e : entry) (t : evinfo) : Prop :=
  e ∈ entries ev t → protected e →
  e ∈ entries ev (off (Some ev) None t)
  ∧ e ∈ entries ev (off None None t)
  ∧ e ∉ entries ev (off (Some ev) (Some e.1) t).

(** "A [once] listener fires on exactly the first [emit] whose filter it
    passes, and is absent from the table thereafter; a second [emit] with
    the same event does not invoke it", for the entry [e] of the event [ev]
    and an [emit] whose payload its filter accepts. *)
Definition once_as_stated {World : Type}
    (run : listener → payload → @state World → outcome * @state World)
    (ev : string) (e : entry) (data : payload) (s : @state World) : Prop :=
  e ∈ entries ev s.2 → opt_once e.2 = true → passes data e.2 = true →
  (e ∉ entries ev (emit run ev data s).2.2)
  ∧ (e.1 ∉ (emit run ev data (emit run ev data s).2).1.2.*1).

(** ** Scenarios *)

(** [{ protect: true }] and [{ protect: false }] *)
Definition protect_true : reg_options := RegOptions None (Some true).
Definition protect_false : reg_options := RegOptions None (Some false).

(** Listeners that do nothing. *)
Definition quiet (l : listener) (data : payload) (s : @state unit)
    : outcome * @state unit :=
  (Returned, s).

(** [e.on("foo", l1)] on a new emitter. *)
Definition one_listener : evinfo := on "foo" 1%nat no_options ∅.

(** [e.on("x", l, { protect: true }); e.on("x", l)] on a new emitter, and
    the two registrations in the other order. *)
Definition protected_then_plain : evinfo :=
  on "x" 1%nat no_options (on "x" 1%nat protect_true ∅).
Definition plain_then_protected : evinfo :=
  on "x" 1%nat protect_true (on "x" 1%nat no_options ∅).

(** [e.once("x", { protect: false })] on a new emitter: the promise form,
    whose shim is the function object [5]. *)
Definition pending_promise : evinfo := once_promise "x" 5%nat protect_false ∅.

(** [e.on("x", l3); e.on("x", l1, { protect: true }); e.on("x", l2)] *)
Definition mixed_listeners : evinfo :=
  on "x" 2%nat no_options (on "x" 1%nat protect_true (on "x" 3%nat no_options ∅)).

(** The listener [l1] registers [l2] for "foo" when called (the test
    "listeners added by listeners"); the other listeners do nothing. *)
Definition adder (l : listener) (data : payload) (s : @state unit)
    : outcome * @state unit :=
  match l with
  | 1%nat => (Returned, (s.1, on "foo" 2%nat no_options s.2))
  | _ => (Returned, s)
  end.

(** The listener [l2] throws; the other listeners do nothing. *)
Definition thrower (l : listener) (data : payload) (s : @state unit)
    : outcome * @state unit :=
  match l with
  | 2%nat => (Thrown, s)
  | _ => (Returned, s)
  end.

(** The listener [l3] calls [e.off()] (the test "listeners removed by
    listeners"); the other listeners do nothing. *)
Definition remover (l : listener) (data : payload) (s : @state unit)
    : outcome * @state unit :=
  match l with
  | 3%nat => (Returned, (s.1, off None None s.2))
  | _ => (Returned, s)
  end.

(** [e.on("foo", l1); e.on("foo", l2); e.on("foo", l3)] *)
Definition three_listeners : evinfo :=
  on "foo" 3%nat no_options (on "foo" 2%nat no_options (on "foo" 1%nat no_options ∅)).

(** [e.on("foo", l1); e.prependOn("foo", l3)] *)
Definition remover_first : evinfo :=
  prependOn "foo" 3%nat no_options (on "foo" 1%nat no_options ∅).


(** [e.on("x", l); e.once("x", l)] *)
Definition on_then_once : evinfo :=
  once "x" 1%nat no_options (on "x" 1%nat no_options ∅).

(** The filter [payload[0] === "bar"] on a one-element payload. *)
Definition is_bar (data : payload) : bool :=
  match data with
  | [VStr s] => String.eqb s "bar"
  | _ => false
  end.

(** [e.on("x", l2); e.once("x", l1, { filter: is_bar }); e.on("x", l3)] *)
Definition filtered_once : evinfo :=
  on "x" 3%nat no_options
    (once "x" 1%nat (RegOptions (Some is_bar) None) (on "x" 2%nat no_options ∅)).


(** ** Calls of the four registration methods *)

(** Whether a method inserts with [unshift], and the [once] flag it sets. *)
Definition method_prepends (m : method) : bool :=
  match m with
  | PrependOn | PrependOnce => true
  | On | Once => false
  end.

Definition method_once (m : method) : bool :=
  match m with
  | Once | PrependOnce => true
  | On | PrependOn => false
  end.

(** A call [e.m(ev, l, options)] of one of the four methods. *)
Definition method_call : Type := method * listener * reg_options.

Definition register_call (ev : string) (t : evinfo) (r : method_call) : evinfo :=
  register_by ev r.1.2 t (r.1.1, r.2).

(** The entry the call stores. *)
Definition stored_entry (r : method_call) : entry :=
  (r.1.2, spread_options (method_once r.1.1) r.2).

(** The test "prepended on/once listeners are ordered". *)
Definition ordering_calls : list method_call :=
  [(On, 5%nat, no_options); (On, 6%nat, no_options);
   (Once, 7%nat, no_options); (Once, 8%nat, no_options);
   (PrependOn, 4%nat, no_options); (PrependOn, 3%nat, no_options);
   (PrependOnce, 2%nat, no_options); (PrependOnce, 1%nat, no_options)].

(** [e.on("foo", l1); e.on("foo", l2, { protect: true }); e.on("bar", l3)] *)
Definition two_events : evinfo :=
  on "bar" 3%nat no_options
    (on "foo" 2%nat protect_true (on "foo" 1%nat no_options ∅)).

(** [e.on("foo", l1, { protect: true }); e.once("bar", l2, { protect: true })] *)
Definition all_protected : evinfo :=
  once "bar" 2%nat protect_true (on "foo" 1%nat protect_true ∅).

(** * Properties *)

(** ** Arrays *)

Example splice_minus_one : splice [1; 2; 3]%nat (-1) 1 = [1; 2]%nat.
Proof. reflexivity. Qed.

Example splice_found : splice [1; 2; 3]%nat 1 1 = [1; 3]%nat.
Proof. reflexivity. Qed.

Section ArrayFacts.
Context {A : Type}.
Implicit Types (p : A → bool) (l pre post : list A).

Lemma findIndex_from_none p l i :
  Forall (λ x, p x = false) l → findIndex_from p l i = -1.
Proof.
  intros Hl. revert i. induction Hl as [|x l Hx _ IH]; intros i; simpl.
  - done.
  - by rewrite Hx.
Qed.

Lemma findIndex_from_first p pre x post i :
  Forall (λ y, p y = false) pre → p x = true →
  findIndex_from p (pre ++ x :: post) i = i + Z.of_nat (length pre).
Proof.
  intros Hpre Hx. revert i. induction Hpre as [|y pre Hy _ IH]; intros i; simpl.
  - rewrite Hx. lia.
  - rewrite Hy, IH. lia.
Qed.

(** Deleting one element at a valid index. *)
Lemma splice_one_at pre x post :
  splice (pre ++ x :: post) (Z.of_nat (length pre)) 1 = pre ++ post.
Proof.
  unfold splice. rewrite length_app. simpl length.
  destruct (Z.ltb_spec (Z.of_nat (length pre)) 0) as [?|_]; [lia|].
  rewrite Z.min_l by lia.
  replace (Z.min (Z.max 1 0) _) with 1 by lia.
  rewrite Nat2Z.id.
  replace (Z.to_nat (Z.of_nat (length pre) + 1)) with (S (length pre)) by lia.
  rewrite take_app_length.
  change (pre ++ x :: post) with (pre ++ [x] ++ post).
  rewrite app_assoc.
  replace (S (length pre)) with (length (pre ++ [x])) by (rewrite length_app; simpl; lia).
  by rewrite drop_app_length.
Qed.

(** [splice(-1, 1)] deletes the last element. *)
Lemma splice_minus_one_last l x : splice (l ++ [x]) (-1) 1 = l.
Proof.
  unfold splice. rewrite length_app. simpl length.
  change (-1 <? 0) with true. cbv iota.
  rewrite Z.max_l by lia.
  replace (Z.min (Z.max 1 0) _) with 1 by lia.
  replace (Z.to_nat (Z.of_nat (length l + 1) + -1)) with (length l) by lia.
  replace (Z.to_nat (Z.of_nat (length l + 1) + -1 + 1)) with (length (l ++ [x]))
    by (rewrite length_app; simpl; lia).
  by rewrite take_app_length, drop_all, app_nil_r.
Qed.

Lemma splice_minus_one_nil : splice (@nil A) (-1) 1 = [].
Proof. reflexivity. Qed.
End ArrayFacts.

(** ** Removing one listener from an array *)

Lemma holds_true c (e : entry) : holds c e = true ↔ e.1 = c.
Proof. unfold holds. by rewrite bool_decide_eq_true. Qed.

Lemma holds_false c (e : entry) : holds c e = false ↔ e.1 ≠ c.
Proof. unfold holds. by rewrite bool_decide_eq_false. Qed.

Lemma not_held c (cbs : list entry) :
  c ∉ cbs.*1 ↔ Forall (λ e, holds c e = false) cbs.
Proof.
  rewrite Forall_forall. split.
  - intros Hc e He. apply holds_false. intros <-. apply Hc.
    by apply list_elem_of_fmap_2.
  - intros Hall [e [-> He]]%list_elem_of_fmap. apply Hall in He.
    by apply holds_false in He.
Qed.

Lemma remove_first_at c (pre post : list entry) (x : entry) :
  c ∉ pre.*1 → x.1 = c → remove_first c (pre ++ x :: post) = pre ++ post.
Proof.
  intros Hpre Hx. induction pre as [|y pre IH]; simpl.
  - apply holds_true in Hx. by rewrite Hx.
  - rewrite fmap_cons, not_elem_of_cons in Hpre. destruct Hpre as [Hy Hpre].
    assert (holds c y = false) as -> by (apply holds_false; congruence).
    by rewrite IH.
Qed.

Lemma remove_first_absent c (cbs : list entry) :
  c ∉ cbs.*1 → remove_first c cbs = cbs.
Proof.
  induction cbs as [|y cbs IH]; simpl; [done|].
  rewrite not_elem_of_cons. intros [Hy Hc].
  assert (holds c y = false) as -> by (apply holds_false; congruence).
  by rewrite IH.
Qed.

(** The first entry holding a listener that some entry holds. *)
Lemma first_holding c (cbs : list entry) :
  c ∈ cbs.*1 →
  ∃ pre x post, cbs = pre ++ x :: post ∧ (c ∉ pre.*1) ∧ x.1 = c.
Proof.
  induction cbs as [|y cbs IH]; simpl.
  - by intros ?%elem_of_nil.
  - destruct (decide (y.1 = c)) as [Hy|Hy].
    + intros _. exists [], y, cbs. split_and!; [done| |done].
      simpl. apply not_elem_of_nil.
    + rewrite elem_of_cons. intros [?|Hc]; [congruence|].
      destruct (IH Hc) as (pre & x & post & -> & Hpre & Hx).
      exists (y :: pre), x, post. split_and!; [done| |done].
      rewrite fmap_cons, not_elem_of_cons. split; [congruence|done].
Qed.

(** When an entry holds [c], the source's [splice] at [findIndex] is the
    removal of the first such entry. *)
Lemma splice_listener_found c (cbs : list entry) :
  c ∈ cbs.*1 → splice_listener c cbs = remove_first c cbs.
Proof.
  intros (pre & x & post & -> & Hpre & Hx)%first_holding.
  rewrite remove_first_at by done.
  unfold splice_listener, findIndex.
  rewrite findIndex_from_first.
  - apply splice_one_at.
  - by apply not_held.
  - by apply holds_true.
Qed.

(** When no entry holds [c], [findIndex] is [-1] and [splice] deletes the
    last entry of the array. *)
Lemma splice_listener_absent c (cbs : list entry) (x : entry) :
  c ∉ (cbs ++ [x]).*1 → splice_listener c (cbs ++ [x]) = cbs.
Proof.
  intros Hc. unfold splice_listener, findIndex.
  rewrite findIndex_from_none by (by apply not_held).
  apply splice_minus_one_last.
Qed.

Lemma splice_listener_nil c : splice_listener c [] = [].
Proof. reflexivity. Qed.

(** ** The table after a method call *)

Lemma lookup_store ev cbs (t : evinfo) :
  store ev cbs t !! ev = match cbs with [] => None | _ => Some cbs end.
Proof.
  unfold store. destruct cbs.
  - apply lookup_delete_eq.
  - apply lookup_insert_eq.
Qed.

Lemma lookup_store_ne ev ev' cbs (t : evinfo) :
  ev ≠ ev' → store ev cbs t !! ev' = t !! ev'.
Proof.
  intros Hne. unfold store. destruct cbs.
  - by apply lookup_delete_ne.
  - by apply lookup_insert_ne.
Qed.

Lemma entries_store ev cbs (t : evinfo) : entries ev (store ev cbs t) = cbs.
Proof. unfold entries. rewrite lookup_store. by destruct cbs. Qed.

Lemma lookup_append_entry ev e (t : evinfo) :
  append_entry ev e t !! ev = Some (entries ev t ++ [e]).
Proof.
  unfold append_entry, entries, push.
  destruct (t !! ev) as [info|]; simpl; apply lookup_insert_eq.
Qed.

Lemma lookup_prepend_entry ev e (t : evinfo) :
  prepend_entry ev e t !! ev = Some (e :: entries ev t).
Proof.
  unfold prepend_entry, entries, unshift.
  destruct (t !! ev) as [info|]; simpl; apply lookup_insert_eq.
Qed.

Lemma entries_append_entry ev e (t : evinfo) :
  entries ev (append_entry ev e t) = entries ev t ++ [e].
Proof. unfold entries at 1. by rewrite lookup_append_entry. Qed.

Lemma entries_prepend_entry ev e (t : evinfo) :
  entries ev (prepend_entry ev e t) = e :: entries ev t.
Proof. unfold entries at 1. by rewrite lookup_prepend_entry. Qed.

Lemma lookup_append_entry_ne ev ev' e (t : evinfo) :
  ev ≠ ev' → append_entry ev e t !! ev' = t !! ev'.
Proof.
  intros Hne. unfold append_entry.
  destruct (t !! ev); by apply lookup_insert_ne.
Qed.

Lemma lookup_prepend_entry_ne ev ev' e (t : evinfo) :
  ev ≠ ev' → prepend_entry ev e t !! ev' = t !! ev'.
Proof.
  intros Hne. unfold prepend_entry.
  destruct (t !! ev); by apply lookup_insert_ne.
Qed.

Lemma lookup_off_listener ev c (t : evinfo) :
  off_listener ev c t !! ev
  = match splice_listener c (entries ev t) with
    | [] => None
    | _ => Some (splice_listener c (entries ev t))
    end.
Proof.
  unfold off_listener, entries.
  destruct (t !! ev) as [cbs|] eqn:Ht; simpl.
  - apply lookup_store.
  - by rewrite Ht.
Qed.

Lemma lookup_off_listener_ne ev ev' c (t : evinfo) :
  ev ≠ ev' → off_listener ev c t !! ev' = t !! ev'.
Proof.
  intros Hne. unfold off_listener.
  destruct (t !! ev); [by apply lookup_store_ne|done].
Qed.

Lemma entries_off_listener ev c (t : evinfo) :
  entries ev (off_listener ev c t) = splice_listener c (entries ev t).
Proof.
  unfold entries at 1. rewrite lookup_off_listener.
  by destruct (splice_listener c (entries ev t)).
Qed.

(** ** The entries that hold a listener *)

Lemma held_cons c (e : entry) cbs :
  held c (e :: cbs) = if decide (e.1 = c) then e :: held c cbs else held c cbs.
Proof. unfold held. by rewrite filter_cons. Qed.

Lemma held_app c (cbs1 cbs2 : list entry) :
  held c (cbs1 ++ cbs2) = held c cbs1 ++ held c cbs2.
Proof. unfold held. by rewrite filter_app. Qed.

Lemma held_nil_iff c (cbs : list entry) : held c cbs = [] ↔ c ∉ cbs.*1.
Proof.
  induction cbs as [|e cbs IH].
  - split; [intros _; apply not_elem_of_nil|done].
  - rewrite held_cons, fmap_cons, not_elem_of_cons.
    destruct (decide (e.1 = c)) as [He|He].
    + split; [done|intros [? _]; congruence].
    + rewrite IH. split; [intros ?; split; [congruence|done]|by intros [_ ?]].
Qed.

Lemma held_elem c (e : entry) cbs : e ∈ held c cbs ↔ e ∈ cbs ∧ e.1 = c.
Proof. unfold held. by rewrite list_elem_of_filter, (comm and). Qed.

Lemma held_remove_first c (cbs : list entry) :
  held c (remove_first c cbs) = tail (held c cbs).
Proof.
  induction cbs as [|e cbs IH]; cbn [remove_first]; [done|].
  rewrite held_cons. destruct (holds c e) eqn:He.
  - apply holds_true in He. by case_decide.
  - apply holds_false in He. rewrite held_cons. by repeat case_decide.
Qed.

Lemma held_remove_first_ne c c' (cbs : list entry) :
  c' ≠ c → held c' (remove_first c cbs) = held c' cbs.
Proof.
  intros Hne. induction cbs as [|e cbs IH]; cbn [remove_first]; [done|].
  destruct (holds c e) eqn:He.
  - apply holds_true in He. rewrite held_cons.
    destruct (decide (e.1 = c')); [congruence|done].
  - rewrite !held_cons. by rewrite IH.
Qed.

Lemma occurrences_cons c x (ls : list listener) :
  occurrences c (x :: ls)
  = ((if decide (x = c) then 1 else 0) + occurrences c ls)%nat.
Proof.
  unfold occurrences. rewrite filter_cons. by destruct (decide (x = c)).
Qed.

Lemma occurrences_app c (ls1 ls2 : list listener) :
  occurrences c (ls1 ++ ls2) = (occurrences c ls1 + occurrences c ls2)%nat.
Proof. unfold occurrences. by rewrite filter_app, length_app. Qed.

Lemma occurrences_zero c (ls : list listener) : occurrences c ls = 0%nat ↔ c ∉ ls.
Proof.
  induction ls as [|x ls IH].
  - split; [intros _; apply not_elem_of_nil|done].
  - rewrite occurrences_cons, not_elem_of_cons.
    destruct (decide (x = c)) as [Hx|Hx].
    + split; [intros ?; lia|intros [? _]; congruence].
    + rewrite Nat.add_0_l, IH. split; [intros ?; split; [congruence|done]|by intros [_ ?]].
Qed.

(** After the removals of the listeners [td], first entry first, the
    entries that hold [c] are those that held it before without the first
    [occurrences c td] ones. *)
Lemma held_foldl_remove_first c (td : list listener) (cbs : list entry) :
  held c (foldl (λ acc cb, remove_first cb acc) cbs td)
  = drop (occurrences c td) (held c cbs).
Proof.
  revert cbs. induction td as [|x td IH]; intros cbs; simpl; [done|].
  rewrite IH, occurrences_cons. destruct (decide (x = c)) as [->|Hx].
  - rewrite held_remove_first. destruct (held c cbs); cbn [tail]; [by rewrite !drop_nil|done].
  - rewrite held_remove_first_ne by congruence. done.
Qed.

Lemma count_holding_zero c (cbs : list entry) :
  count_holding c cbs = 0%nat ↔ c ∉ cbs.*1.
Proof. unfold count_holding. by rewrite length_zero_iff_nil, held_nil_iff. Qed.

Lemma count_holding_remove_first c (cbs : list entry) :
  c ∈ cbs.*1 → count_holding c cbs = S (count_holding c (remove_first c cbs)).
Proof.
  intros Hc. unfold count_holding. rewrite held_remove_first.
  destruct (held c cbs) eqn:Hh; [|done].
  by apply held_nil_iff in Hh.
Qed.

Lemma count_holding_remove_first_ne c c' (cbs : list entry) :
  c' ≠ c → count_holding c' (remove_first c cbs) = count_holding c' cbs.
Proof. intros Hne. unfold count_holding. by rewrite held_remove_first_ne. Qed.

(** The number of times [c] is scheduled for deletion by [off(ev)]. *)
Lemma occurrences_todel c (cbs : list entry) :
  (occurrences c (todel cbs) ≤ count_holding c cbs)%nat.
Proof.
  unfold todel, count_holding. induction cbs as [|e cbs IH]; [done|].
  rewrite held_cons, filter_cons.
  destruct (decide (negb (truthy (opt_protect e.2)))).
  - rewrite fmap_cons, occurrences_cons.
    destruct (decide (e.1 = c)); cbn [length]; lia.
  - destruct (decide (e.1 = c)); cbn [length]; lia.
Qed.

(** The same bound for the [once] entries an [emit] fires. *)
Lemma occurrences_fired_once c data (cbs : list entry) :
  (occurrences c (fired_once data cbs) ≤ count_holding c cbs)%nat.
Proof.
  unfold fired_once, count_holding. induction cbs as [|e cbs IH]; [done|].
  rewrite held_cons, filter_cons.
  destruct (decide (passes data e.2 = true ∧ opt_once e.2 = true)).
  - rewrite fmap_cons, occurrences_cons.
    destruct (decide (e.1 = c)); cbn [length]; lia.
  - destruct (decide (e.1 = c)); cbn [length]; lia.
Qed.

(** ** [off(ev)] never reaches [findIndex = -1] *)

Lemma foldl_splice_listener (td : list listener) (cbs : list entry) :
  (∀ c, (occurrences c td ≤ count_holding c cbs)%nat) →
  foldl (λ acc cb, splice_listener cb acc) cbs td
  = foldl (λ acc cb, remove_first cb acc) cbs td.
Proof.
  revert cbs. induction td as [|c td IH]; intros cbs Hle; simpl; [done|].
  assert (c ∈ cbs.*1) as Hc.
  { destruct (decide (c ∈ cbs.*1)) as [|Hn]; [done|].
    apply count_holding_zero in Hn. specialize (Hle c).
    rewrite occurrences_cons, decide_True in Hle by done. lia. }
  rewrite splice_listener_found by done.
  apply IH. intros c'. specialize (Hle c'). rewrite occurrences_cons in Hle.
  destruct (decide (c = c')) as [<-|Hne].
  - rewrite (count_holding_remove_first c cbs) in Hle by done. lia.
  - rewrite count_holding_remove_first_ne by done. lia.
Qed.

Lemma entries_off_event ev (t : evinfo) :
  entries ev (off_event ev t)
  = foldl (λ acc cb, remove_first cb acc) (entries ev t) (todel (entries ev t)).
Proof.
  unfold off_event, entries at 2 3.
  destruct (t !! ev) as [cbs|] eqn:Ht; simpl.
  - rewrite entries_store. apply foldl_splice_listener. intros c. apply occurrences_todel.
  - unfold entries. by rewrite Ht.
Qed.

Lemma lookup_off_event_ne ev ev' (t : evinfo) :
  ev ≠ ev' → off_event ev t !! ev' = t !! ev'.
Proof.
  intros Hne. unfold off_event.
  destruct (t !! ev); [by apply lookup_store_ne|done].
Qed.

(** ** [off()] is [off(ev)] at every key *)

Lemma lookup_off_event_congr ev (t t' : evinfo) :
  t !! ev = t' !! ev → off_event ev t !! ev = off_event ev t' !! ev.
Proof.
  intros Heq. unfold off_event. rewrite <- Heq.
  destruct (t !! ev) as [cbs|] eqn:Ht; [|congruence].
  by rewrite !lookup_store.
Qed.

Lemma lookup_foldl_off_event (ks : list string) ev (t : evinfo) :
  NoDup ks →
  foldl (λ acc k, off_event k acc) t ks !! ev
  = if decide (ev ∈ ks) then off_event ev t !! ev else t !! ev.
Proof.
  intros Hnd. revert t. induction Hnd as [|k ks Hk Hnd IH]; intros t; cbn [foldl].
  - by rewrite decide_False by apply not_elem_of_nil.
  - rewrite IH. destruct (decide (ev = k)) as [->|Hne].
    + rewrite decide_False by done. by rewrite decide_True by (apply elem_of_cons; by left).
    + destruct (decide (ev ∈ ks)) as [Hin|Hnin].
      * rewrite decide_True by (apply elem_of_cons; by right).
        apply lookup_off_event_congr. by apply lookup_off_event_ne.
      * rewrite decide_False by (rewrite elem_of_cons; intros [?|?]; done).
        by apply lookup_off_event_ne.
Qed.

Lemma elem_of_keys ev (t : evinfo) : ev ∈ keys t ↔ is_Some (t !! ev).
Proof.
  unfold keys. rewrite list_elem_of_fmap. split.
  - intros [[k cbs] [-> Hin]]. apply elem_of_map_to_list in Hin. by exists cbs.
  - intros [cbs Hcbs]. exists (ev, cbs). split; [done|].
    by apply elem_of_map_to_list.
Qed.

Lemma lookup_off_all c ev (t : evinfo) :
  off None c t !! ev = off_event ev t !! ev.
Proof.
  unfold off. rewrite lookup_foldl_off_event by apply NoDup_fst_map_to_list.
  destruct (decide (ev ∈ keys t)) as [|Hn]; [done|].
  rewrite elem_of_keys, <- eq_None_not_Some in Hn.
  unfold off_event. by rewrite Hn.
Qed.

Lemma entries_off_all c ev (t : evinfo) :
  entries ev (off None c t) = entries ev (off_event ev t).
Proof. unfold entries. by rewrite lookup_off_all. Qed.

(** ** The loop of [emit] *)

Lemma firing_cons data (e : entry) cbs :
  firing data (e :: cbs)
  = if passes data e.2 then e.1 :: firing data cbs else firing data cbs.
Proof.
  unfold firing. rewrite filter_cons.
  destruct (passes data e.2); by case_decide.
Qed.

Lemma firing_subseteq data (cbs : list entry) : firing data cbs ⊆ cbs.*1.
Proof.
  intros l. unfold firing. rewrite !list_elem_of_fmap.
  intros [e [-> [_ He]%list_elem_of_filter]]. by exists e.
Qed.


Lemma fired_once_cons data (e : entry) cbs :
  fired_once data (e :: cbs)
  = if passes data e.2 && opt_once e.2
    then e.1 :: fired_once data cbs else fired_once data cbs.
Proof.
  unfold fired_once. rewrite filter_cons.
  destruct (decide (passes data e.2 = true ∧ opt_once e.2 = true)) as [[-> ->]|Hn].
  - done.
  - destruct (passes data e.2), (opt_once e.2); cbn [andb]; try done.
    by destruct Hn.
Qed.

Lemma entries_foldl_off_listener ev (cs : list listener) (t : evinfo) :
  entries ev (foldl (λ acc cb, off_listener ev cb acc) t cs)
  = foldl (λ acc cb, splice_listener cb acc) (entries ev t) cs.
Proof.
  revert t. induction cs as [|c cs IH]; intros t; cbn [foldl]; [done|].
  by rewrite IH, entries_off_listener.
Qed.

Lemma lookup_foldl_off_listener_ne ev ev' (cs : list listener) (t : evinfo) :
  ev ≠ ev' → foldl (λ acc cb, off_listener ev cb acc) t cs !! ev' = t !! ev'.
Proof.
  intros Hne. revert t. induction cs as [|c cs IH]; intros t; cbn [foldl]; [done|].
  by rewrite IH, lookup_off_listener_ne.
Qed.

Section DispatchFacts.
Context {World : Type}.
Variable run : listener → payload → @state World → outcome * @state World.

(** The listeners called are the firing ones of the copied array, in its
    order, up to the first that throws: the tables the listeners leave play
    no part. *)
Lemma emit_loop_invoked ev data snapshot s out tr s' :
  emit_loop run ev data snapshot s = (out, tr, s') →
  tr.*1 = match out with
          | Returned => firing data snapshot
          | Thrown => take (length tr) (firing data snapshot)
          end.
Proof.
  revert s out tr s'.
  induction snapshot as [|[cb o] rest IH]; intros s out tr s'; cbn [emit_loop].
  - intros [= <- <- <-]. done.
  - rewrite firing_cons. cbn [fst snd]. destruct (passes data o).
    + destruct (run cb data s) as [[|] s1].
      * destruct (emit_loop run ev data rest _) as [[out1 tr1] s3] eqn:Hrest.
        intros [= <- <- <-]. apply IH in Hrest.
        rewrite fmap_cons. cbn [fst length]. rewrite Hrest.
        by destruct out1.
      * intros [= <- <- <-]. done.
    + apply IH.
Qed.

Lemma emit_loop_app ev data (pre post : list entry) s :
  emit_loop run ev data (pre ++ post) s
  = match emit_loop run ev data pre s with
    | (Returned, tr1, s1) =>
        let '(out, tr2, s2) := emit_loop run ev data post s1 in
        (out, tr1 ++ tr2, s2)
    | (Thrown, tr1, s1) => (Thrown, tr1, s1)
    end.
Proof.
  revert s. induction pre as [|[cb o] pre IH]; intros s; cbn [emit_loop app].
  - by destruct (emit_loop run ev data post s) as [[out tr2] s2].
  - destruct (passes data o); [|apply IH].
    destruct (run cb data s) as [[|] s1]; [|done].
    rewrite IH.
    destruct (emit_loop run ev data pre _) as [[[|] tr1] s3]; [|done].
    by destruct (emit_loop run ev data post s3) as [[out tr2] s2].
Qed.

(** With listeners that return and leave the table alone, the loop calls
    every firing listener and the only changes of the table are the
    removals [this.off(ev, cb)] after the [once] entries. *)
Lemma emit_loop_passive ev data snapshot s :
  passive run →
  ∃ w, emit_loop run ev data snapshot s
       = (Returned, (λ l, (l, Returned)) <$> firing data snapshot,
          (w, foldl (λ acc cb, off_listener ev cb acc) s.2
                (fired_once data snapshot))).
Proof.
  intros Hpassive. revert s.
  induction snapshot as [|[cb o] rest IH]; intros [w t]; cbn [emit_loop].
  - exists w. done.
  - rewrite firing_cons, fired_once_cons. cbn [fst snd].
    destruct (passes data o); cbn [andb]; [|apply IH].
    destruct (Hpassive cb data (w, t)) as [Hout Htable].
    destruct (run cb data (w, t)) as [out [w1 t1]].
    cbn [fst snd] in Hout, Htable. subst out t1.
    destruct (opt_once o); cbn [fst snd].
    + destruct (IH (w1, off_listener ev cb t)) as [w2 ->]. by exists w2.
    + destruct (IH (w1, t)) as [w2 ->]. by exists w2.
Qed.

Lemma emit_invoked ev data s out tr s' :
  emit run ev data s = (out, tr, s') →
  tr.*1 = match out with
          | Returned => firing data (entries ev s.2)
          | Thrown => take (length tr) (firing data (entries ev s.2))
          end.
Proof.
  unfold emit, entries. destruct (s.2 !! ev) as [cbs|]; cbn [default].
  - apply emit_loop_invoked.
  - by intros [= <- <- <-].
Qed.

Lemma emit_invoked_subseteq ev data s out tr s' :
  emit run ev data s = (out, tr, s') → tr.*1 ⊆ (entries ev s.2).*1.
Proof.
  intros Hloop%emit_invoked. rewrite Hloop. destruct out.
  - apply firing_subseteq.
  - etrans; [apply subseteq_take|apply firing_subseteq].
Qed.

Lemma emit_passive ev data s out tr s' :
  passive run →
  emit run ev data s = (out, tr, s') →
  out = Returned
  ∧ tr.*1 = firing data (entries ev s.2)
  ∧ entries ev s'.2
    = foldl (λ acc cb, remove_first cb acc) (entries ev s.2)
        (fired_once data (entries ev s.2)).
Proof.
  intros Hpassive. unfold emit.
  destruct (s.2 !! ev) as [cbs|] eqn:Hs.
  - assert (entries ev s.2 = cbs) as -> by (unfold entries; by rewrite Hs).
    destruct (emit_loop_passive ev data cbs s Hpassive) as [w ->].
    intros [= <- <- <-]. split_and!; [done| |].
    + rewrite <- list_fmap_compose. apply list_fmap_id.
    + cbn [snd]. rewrite entries_foldl_off_listener.
      assert (entries ev s.2 = cbs) as -> by (unfold entries; by rewrite Hs).
      apply foldl_splice_listener. intros c. apply occurrences_fired_once.
  - assert (entries ev s.2 = []) as -> by (unfold entries; by rewrite Hs).
    intros [= <- <- <-]. unfold entries. by rewrite Hs.
Qed.
End DispatchFacts.

(** ** Targeted removal: [off(ev, listener)] *)

(** What [off(ev, c)] does to the array of [ev]. *)
Lemma entries_off_targeted ev c (t : evinfo) :
  entries ev (off (Some ev) (Some c) t) = splice_listener c (entries ev t).
Proof. apply entries_off_listener. Qed.

(** When an entry holds [c], the first such entry goes. *)
Lemma off_listener_found ev c (t : evinfo) :
  c ∈ (entries ev t).*1 →
  entries ev (off (Some ev) (Some c) t) = remove_first c (entries ev t).
Proof. intros Hc. by rewrite entries_off_targeted, splice_listener_found. Qed.

(** When no entry holds [c], the last entry of a non-empty array goes. *)
Lemma off_listener_absent (ev : string) (c : listener) (cbs : list entry)
    (x : entry) (t : evinfo) :
  t !! ev = Some (cbs ++ [x]) → c ∉ (cbs ++ [x]).*1 →
  off (Some ev) (Some c) t = store ev cbs t.
Proof.
  intros Ht Hc. unfold off, off_listener. rewrite Ht.
  by rewrite splice_listener_absent.
Qed.

(** C1, at the call [e.on("foo", l1); e.off("foo", l2)]: no entry of "foo"
    holds [l2], yet the call deletes the entry of [l1] and with it the key
    "foo", so the table is not the one before the call. *)
Theorem off_unmatched_removes_last :
  entries "foo" one_listener = [(1%nat, Options false None None)]
  ∧ (2%nat ∉ (entries "foo" one_listener).*1)
  ∧ off (Some "foo") (Some 2%nat) one_listener = ∅
  ∧ ¬ off_unmatched_is_noop "foo" 2%nat one_listener.
Proof.
  assert (2%nat ∉ (entries "foo" one_listener).*1) as Hnot.
  { vm_compute. by intros [?|?%elem_of_nil]%elem_of_cons. }
  assert (off (Some "foo") (Some 2%nat) one_listener = ∅) as Hoff
    by (by vm_compute).
  split_and!; [done|done|done|].
  intros Hnoop.
  assert (off (Some "foo") (Some 2%nat) one_listener = one_listener) as Hsame.
  { apply Hnoop; [by vm_compute|done]. }
  rewrite Hoff in Hsame.
  apply (f_equal (λ t : evinfo, t !! "foo")) in Hsame.
  by vm_compute in Hsame.
Qed.

(** ** Untargeted removal: [off(ev)] and [off()] *)


Lemma todel_cons (e : entry) cbs :
  todel (e :: cbs) = if truthy (opt_protect e.2) then todel cbs else e.1 :: todel cbs.
Proof.
  unfold todel. rewrite filter_cons.
  destruct (truthy (opt_protect e.2)); by case_decide.
Qed.

Lemma todel_protected (cbs : list entry) : Forall protected cbs → todel cbs = [].
Proof.
  induction 1 as [|e cbs He _ IH]; [done|].
  rewrite todel_cons. unfold protected in He. by rewrite He.
Qed.

Lemma elem_of_todel c (cbs : list entry) :
  c ∈ todel cbs ↔ ∃ e, e ∈ cbs ∧ e.1 = c ∧ truthy (opt_protect e.2) = false.
Proof.
  unfold todel. rewrite list_elem_of_fmap. split.
  - intros [e [-> [He Hin]%list_elem_of_filter]]. exists e. split_and!; [done..|].
    by destruct (truthy (opt_protect e.2)).
  - intros (e & Hin & <- & He). exists e. split; [done|].
    apply list_elem_of_filter. split; [|done]. by rewrite He.
Qed.

(** An entry that is protected and the only one to hold its listener is
    kept by [off(ev)]. *)
Lemma held_off_event_protected ev c o (t : evinfo) :
  held c (entries ev t) = [(c, o)] → truthy (opt_protect o) = true →
  held c (entries ev (off_event ev t)) = [(c, o)].
Proof.
  intros Hheld Hprot. rewrite entries_off_event, held_foldl_remove_first.
  assert (occurrences c (todel (entries ev t)) = 0%nat) as ->; [|by rewrite Hheld].
  apply occurrences_zero. intros (e & Hin & He & Hunprot)%elem_of_todel.
  assert (e ∈ held c (entries ev t)) as Hh by by apply held_elem.
  rewrite Hheld in Hh. apply list_elem_of_singleton in Hh. subst e.
  cbn [snd] in Hunprot. congruence.
Qed.

(** X17: an entry registered with [protect: true] whose listener is held
    by no other entry of the event is kept by [off(ev)] and by [off()], and
    is removed by [off(ev, c)] with its listener [c]. *)
Theorem protected_unique_removal ev c o (t : evinfo) :
  held c (entries ev t) = [(c, o)] → truthy (opt_protect o) = true →
  held c (entries ev (off (Some ev) None t)) = [(c, o)]
  ∧ held c (entries ev (off None None t)) = [(c, o)]
  ∧ held c (entries ev (off (Some ev) (Some c) t)) = [].
Proof.
  intros Hheld Hprot. split_and!.
  - by apply held_off_event_protected.
  - rewrite entries_off_all. by apply held_off_event_protected.
  - rewrite off_listener_found.
    + by rewrite held_remove_first, Hheld.
    + destruct (decide (c ∈ (entries ev t).*1)) as [|Hn]; [done|].
      apply held_nil_iff in Hn. congruence.
Qed.

Lemma protected_unique_removal_witness :
  held 1%nat (entries "x" mixed_listeners) = [(1%nat, Options false (Some true) None)]
  ∧ truthy (Some true) = true
  ∧ held 1%nat (entries "x" (off (Some "x") None mixed_listeners))
    = [(1%nat, Options false (Some true) None)]
  ∧ held 1%nat (entries "x" (off None None mixed_listeners))
    = [(1%nat, Options false (Some true) None)]
  ∧ held 1%nat (entries "x" (off (Some "x") (Some 1%nat) mixed_listeners)) = [].
Proof.
  split; [reflexivity|]. split; [reflexivity|].
  apply (protected_unique_removal "x" 1%nat (Options false (Some true) None));
    reflexivity.
Defined.

(** Targeted removal goes to the first holder: after
    [e.on("x", l); e.on("x", l, { protect: true })], [e.off("x", l)]
    removes the unprotected entry, which comes first, and the entry
    registered with [protect: true] stays. *)
Lemma protected_duplicate_not_removed :
  ¬ protection_as_stated "x" (1%nat, Options false (Some true) None)
      plain_then_protected.
Proof.
  intros Hclaim. destruct Hclaim as (_ & _ & Hgone).
  - vm_compute. apply elem_of_cons. right. apply elem_of_cons. by left.
  - reflexivity.
  - apply Hgone. vm_compute. apply elem_of_cons. by left.
Qed.

(** C5, at the calls
    [e.on("x", l, { protect: true }); e.on("x", l); e.off("x")]: the loop
    of [off(ev)] collects [l] from the unprotected second entry, and
    [findIndex] then finds [l] at index 0, the entry registered with
    [protect: true]; that entry is deleted and the unprotected one stays.
    [e.off()] does the same.  So an entry registered with [protect: true]
    is removed by [off(event)] and by [off()]. *)
Theorem protected_entry_removed_by_untargeted_off :
  entries "x" protected_then_plain
  = [(1%nat, Options false (Some true) None); (1%nat, Options false None None)]
  ∧ entries "x" (off (Some "x") None protected_then_plain)
    = [(1%nat, Options false None None)]
  ∧ entries "x" (off None None protected_then_plain)
    = [(1%nat, Options false None None)]
  ∧ ¬ protection_as_stated "x" (1%nat, Options false (Some true) None)
        protected_then_plain.
Proof.
  split_and!; [reflexivity|vm_compute; reflexivity|vm_compute; reflexivity|].
  intros Hclaim. destruct Hclaim as (Hkept & _ & _).
  - vm_compute. apply elem_of_cons. by left.
  - reflexivity.
  - vm_compute in Hkept.
    apply elem_of_cons in Hkept as [Heq|Hin]; [discriminate|].
    by apply elem_of_nil in Hin.
Qed.



(** ** The promise form of [once] and [prependOnce] *)

(** The entry stored is [once] and protected, whatever [protect] option
    the caller passed. *)
Lemma lookup_once_promise ev shim uo (t : evinfo) :
  once_promise ev shim uo t !! ev
  = Some (entries ev t ++ [(shim, Options true (Some true) (reg_filter uo))]).
Proof. apply lookup_append_entry. Qed.

Lemma lookup_prependOnce_promise ev shim uo (t : evinfo) :
  prependOnce_promise ev shim uo t !! ev
  = Some ((shim, Options true (Some true) (reg_filter uo)) :: entries ev t).
Proof. apply lookup_prepend_entry. Qed.

(** C7, at the calls [e.once("x", { protect: false }); e.off("x", g)] with
    [g] a function that was never registered: the entry of the promise is
    stored with [once] and [protect] set, and the [off] call, which names
    another listener, removes it: the table is empty afterwards. *)
Theorem promise_entry_removed_by_unmatched_off :
  entries "x" pending_promise = [(5%nat, Options true (Some true) None)]
  ∧ 9%nat ≠ 5%nat
  ∧ off (Some "x") (Some 9%nat) pending_promise = ∅.
Proof. split_and!; [reflexivity|discriminate|by vm_compute]. Qed.

(** ** Dispatch: snapshot, order, failure *)


Section DispatchClaims.
Context {World : Type}.
Variable run : listener → payload → @state World → outcome * @state World.


(** C8: when the listener of an entry throws, [emit] ends there: the
    calls made are those before it and the throwing one, the entries after
    it in the array are not visited, the table is the one the throwing
    listener left, and the call of [emit] itself throws. *)
Theorem emit_throw_aborts (ev : string) data s (pre post : list entry) cb o tr1 s1 s2 :
  s.2 !! ev = Some (pre ++ (cb, o) :: post) →
  emit_loop run ev data pre s = (Returned, tr1, s1) →
  passes data o = true →
  run cb data s1 = (Thrown, s2) →
  emit run ev data s = (Thrown, tr1 ++ [(cb, Thrown)], s2).
Proof.
  intros Hs Hpre Hpass Hthrow. unfold emit. rewrite Hs.
  rewrite emit_loop_app, Hpre. cbn [emit_loop]. by rewrite Hpass, Hthrow.
Qed.

End DispatchClaims.


(** The test "listeners added by listeners": the listener added during the
    first [emit] is called by the second one only. *)
Example listener_added_by_listener :
  (emit adder "foo" [] ((), one_listener)).1.2 = [(1%nat, Returned)]
  ∧ (emit adder "foo" [] (emit adder "foo" [] ((), one_listener)).2).1.2
    = [(1%nat, Returned); (2%nat, Returned)].
Proof. split; vm_compute; reflexivity. Qed.

(** The test "listeners removed by listeners": the prepended listener
    calls [e.off()], and the listener it removed is still called in the
    same pass, and not in the next one. *)
Example listener_removed_by_listener :
  emit remover "foo" [] ((), remover_first)
  = (Returned, [(3%nat, Returned); (1%nat, Returned)], ((), ∅))
  ∧ (emit remover "foo" [] (emit remover "foo" [] ((), remover_first)).2).1.2 = [].
Proof. split; vm_compute; reflexivity. Qed.

Lemma emit_throw_aborts_witness :
  ((), three_listeners).2 !! "foo"
  = Some ([(1%nat, Options false None None)]
          ++ (2%nat, Options false None None) :: [(3%nat, Options false None None)])
  ∧ emit_loop thrower "foo" [] [(1%nat, Options false None None)] ((), three_listeners)
    = (Returned, [(1%nat, Returned)], ((), three_listeners))
  ∧ passes [] (Options false None None) = true
  ∧ thrower 2%nat [] ((), three_listeners) = (Thrown, ((), three_listeners))
  ∧ emit thrower "foo" [] ((), three_listeners)
    = (Thrown, [(1%nat, Returned)] ++ [(2%nat, Thrown)], ((), three_listeners)).
Proof.
  split; [reflexivity|]. split; [reflexivity|].
  split; [reflexivity|]. split; [reflexivity|].
  apply (emit_throw_aborts thrower "foo" [] ((), three_listeners)
           [(1%nat, Options false None None)] [(3%nat, Options false None None)]
           2%nat (Options false None None) [(1%nat, Returned)]
           ((), three_listeners) ((), three_listeners)); reflexivity.
Defined.


(** ** Several entries with one listener *)


Lemma occurrences_firing c data (cbs : list entry) :
  occurrences c (firing data cbs)
  = length (filter (λ e : entry, passes data e.2 = true) (held c cbs)).
Proof.
  induction cbs as [|e cbs IH]; [done|].
  rewrite firing_cons, held_cons.
  destruct (passes data e.2) eqn:Hp, (decide (e.1 = c)) as [He|He].
  - rewrite occurrences_cons, filter_cons, !decide_True by done.
    cbn [length]. lia.
  - rewrite occurrences_cons, decide_False by done. lia.
  - rewrite filter_cons, decide_False by (rewrite Hp; done). done.
  - done.
Qed.

Lemma occurrences_fired_once_held c data (cbs : list entry) :
  occurrences c (fired_once data cbs)
  = length (filter (λ e : entry, passes data e.2 = true ∧ opt_once e.2 = true)
              (held c cbs)).
Proof.
  induction cbs as [|e cbs IH]; [done|].
  rewrite fired_once_cons, held_cons.
  destruct (decide (e.1 = c)) as [He|He].
  - rewrite filter_cons.
    destruct (decide (passes data e.2 = true ∧ opt_once e.2 = true)) as [[-> ->]|Hn].
    + cbn [andb length]. rewrite occurrences_cons, decide_True by done. lia.
    + destruct (passes data e.2), (opt_once e.2); cbn [andb]; try done.
      by destruct Hn.
  - destruct (passes data e.2 && opt_once e.2); [|done].
    rewrite occurrences_cons, decide_False by done. lia.
Qed.



Section Duplicates.
Context {World : Type}.
Variable run : listener → payload → @state World → outcome * @state World.

End Duplicates.


(** ** [once] entries *)

Section OnceClaims.
Context {World : Type}.
Variable run : listener → payload → @state World → outcome * @state World.

(** C4, as amended: take a [once] entry whose listener [c] is held by no
    other entry of the event, and listeners that return and do not change
    the table themselves.  An [emit] whose payload the entry's filter
    rejects does not call [c] and leaves the entry where it is; an [emit]
    whose payload it accepts calls [c] exactly once and leaves no entry
    holding [c], so that no later [emit] of the event calls [c]. *)
Theorem once_fires_once (ev : string) c o data s out tr s' :
  passive run →
  opt_once o = true →
  held c (entries ev s.2) = [(c, o)] →
  emit run ev data s = (out, tr, s') →
  out = Returned
  ∧ if passes data o
    then occurrences c tr.*1 = 1%nat
         ∧ (c ∉ (entries ev s'.2).*1)
         ∧ ∀ data2 w2, c ∉ (emit run ev data2 (w2, s'.2)).1.2.*1
    else (c ∉ tr.*1) ∧ held c (entries ev s'.2) = [(c, o)].
Proof.
  intros Hpassive Honce Hheld Hemit.
  destruct (emit_passive run ev data s out tr s' Hpassive Hemit)
    as (-> & Htr & Hent).
  split; [done|].
  assert (occurrences c tr.*1 = if passes data o then 1%nat else 0%nat) as Hocc.
  { rewrite Htr, occurrences_firing, Hheld, filter_cons. cbn [snd].
    destruct (passes data o); by case_decide. }
  assert (held c (entries ev s'.2) = if passes data o then [] else [(c, o)]) as Hleft.
  { rewrite Hent, held_foldl_remove_first, occurrences_fired_once_held, Hheld.
    rewrite filter_cons. cbn [snd]. rewrite Honce.
    destruct (passes data o).
    - by rewrite decide_True.
    - by rewrite decide_False by (by intros [? _]). }
  destruct (passes data o).
  - split_and!; [done|by apply held_nil_iff|].
    intros data2 w2 Hin.
    destruct (emit run ev data2 (w2, s'.2)) as [[out2 tr2] s2] eqn:Hemit2.
    apply emit_invoked_subseteq in Hemit2. apply Hemit2 in Hin.
    by apply held_nil_iff in Hleft.
  - split; [by apply occurrences_zero|done].
Qed.
End OnceClaims.

Lemma passive_quiet : passive quiet.
Proof. intros l data s. split; reflexivity. Defined.

Lemma once_fires_once_witness :
  passive quiet
  ∧ opt_once (Options true None (Some is_bar)) = true
  ∧ held 1%nat (entries "x" ((), filtered_once).2)
    = [(1%nat, Options true None (Some is_bar))]
  ∧ emit quiet "x" [VStr "bar"] ((), filtered_once)
    = (Returned, [(2%nat, Returned); (1%nat, Returned); (3%nat, Returned)],
       ((), on "x" 3%nat no_options (on "x" 2%nat no_options ∅)))
  ∧ Returned = Returned
  ∧ occurrences 1%nat
      [(2%nat, Returned); (1%nat, Returned); (3%nat, Returned)].*1 = 1%nat
  ∧ (1%nat ∉ (entries "x" (on "x" 3%nat no_options (on "x" 2%nat no_options ∅))).*1)
  ∧ ∀ data2 w2,
      1%nat ∉ (emit quiet "x" data2
                 (w2, on "x" 3%nat no_options (on "x" 2%nat no_options ∅))).1.2.*1.
Proof.
  split; [exact passive_quiet|]. split; [reflexivity|]. split; [reflexivity|].
  split; [vm_compute; reflexivity|].
  apply (once_fires_once quiet "x" 1%nat (Options true None (Some is_bar))
           [VStr "bar"] ((), filtered_once) Returned
           [(2%nat, Returned); (1%nat, Returned); (3%nat, Returned)]
           ((), on "x" 3%nat no_options (on "x" 2%nat no_options ∅))).
  - exact passive_quiet.
  - reflexivity.
  - reflexivity.
  - vm_compute; reflexivity.
Defined.

(** Scenario E with a [once] listener: a payload the filter rejects does
    not use up the entry. *)
Example once_waits_for_accepted_payload :
  (emit quiet "x" [VStr "baz"] ((), filtered_once)).1.2
  = [(2%nat, Returned); (3%nat, Returned)]
  ∧ (emit quiet "x" [VStr "baz"] ((), filtered_once)).2 = ((), filtered_once).
Proof. split; vm_compute; reflexivity. Qed.

(** C4, as stated, fails for [e.on("x", l); e.once("x", l)] and listeners
    that do nothing: the [emit] calls [l] for both entries, and the removal
    [this.off("x", l)] after the [once] entry deletes the first entry that
    holds [l], the one registered by [on]; the [once] entry is still in the
    table and the second [emit] calls [l] again. *)
Lemma once_duplicate_stays :
  ¬ once_as_stated quiet "x" (1%nat, Options true None None) [] ((), on_then_once).
Proof.
  intros Hclaim. destruct Hclaim as [Hgone _].
  - vm_compute. apply elem_of_cons. right. apply elem_of_cons. by left.
  - reflexivity.
  - reflexivity.
  - apply Hgone. vm_compute. apply elem_of_cons. by left.
Qed.

(** ** The table has no empty array *)

Lemma no_empty_empty : no_empty ∅.
Proof. intros ev cbs Hev. by rewrite lookup_empty in Hev. Qed.

Lemma no_empty_insert ev (cbs : list entry) (t : evinfo) :
  cbs ≠ [] → no_empty t → no_empty (<[ev := cbs]> t).
Proof.
  intros Hcbs Ht ev' cbs'. rewrite lookup_insert. case_decide.
  - by intros [= <-].
  - apply Ht.
Qed.

Lemma no_empty_store ev (cbs : list entry) (t : evinfo) :
  no_empty t → no_empty (store ev cbs t).
Proof.
  intros Ht. unfold store. destruct cbs as [|e cbs].
  - intros ev' cbs'. rewrite lookup_delete. case_decide; [done|apply Ht].
  - by apply no_empty_insert.
Qed.

Lemma no_empty_append_entry ev e (t : evinfo) :
  no_empty t → no_empty (append_entry ev e t).
Proof.
  intros Ht. unfold append_entry, push.
  destruct (t !! ev) as [info|]; apply no_empty_insert; try done.
  by destruct info.
Qed.

Lemma no_empty_prepend_entry ev e (t : evinfo) :
  no_empty t → no_empty (prepend_entry ev e t).
Proof.
  intros Ht. unfold prepend_entry, unshift.
  destruct (t !! ev) as [info|]; by apply no_empty_insert.
Qed.

Lemma no_empty_off_listener ev c (t : evinfo) :
  no_empty t → no_empty (off_listener ev c t).
Proof.
  intros Ht. unfold off_listener.
  destruct (t !! ev); [by apply no_empty_store|done].
Qed.

Lemma no_empty_off_event ev (t : evinfo) : no_empty t → no_empty (off_event ev t).
Proof.
  intros Ht. unfold off_event.
  destruct (t !! ev); [by apply no_empty_store|done].
Qed.

Lemma no_empty_off ev c (t : evinfo) : no_empty t → no_empty (off ev c t).
Proof.
  intros Ht. destruct ev as [ev|]; [destruct c as [c|]|]; cbn [off].
  - by apply no_empty_off_listener.
  - by apply no_empty_off_event.
  - generalize (keys t). intros ks. revert t Ht.
    induction ks as [|k ks IH]; intros t Ht; cbn [foldl]; [done|].
    apply IH. by apply no_empty_off_event.
Qed.

Section Invariant.
Context {World : Type}.
Variable run : listener → payload → @state World → outcome * @state World.

(** A listener changes the table through the emitter's methods only. *)
Hypothesis listeners_keep_no_empty :
  ∀ l data s, no_empty s.2 → no_empty (run l data s).2.2.

Lemma no_empty_emit_loop ev data (snapshot : list entry) s :
  no_empty s.2 → no_empty (emit_loop run ev data snapshot s).2.2.
Proof.
  revert s. induction snapshot as [|[cb o] rest IH]; intros s Hs; cbn [emit_loop].
  - done.
  - destruct (passes data o); [|by apply IH].
    pose proof (listeners_keep_no_empty cb data s Hs) as Hrun.
    destruct (run cb data s) as [[|] s1]; cbn [fst snd] in *; [|done].
    match goal with
    | |- context [emit_loop run ev data rest ?s2] =>
        pose proof (IH s2) as IH2;
        destruct (emit_loop run ev data rest s2) as [[out tr] s3]
    end.
    apply IH2. destruct (opt_once o); [|done].
    by apply no_empty_off_listener.
Qed.

Lemma no_empty_perform (c : call) s :
  no_empty s.2 → no_empty (perform run c s).2.
Proof.
  intros Hs. destruct c; cbn [perform snd].
  - by apply no_empty_append_entry.
  - by apply no_empty_prepend_entry.
  - by apply no_empty_append_entry.
  - by apply no_empty_append_entry.
  - by apply no_empty_prepend_entry.
  - by apply no_empty_prepend_entry.
  - by apply no_empty_off.
  - unfold emit. destruct (s.2 !! ev); [|done].
    by apply no_empty_emit_loop.
Qed.
End Invariant.

(** C6: provided the listeners themselves keep the invariant (they reach
    the table through the methods only), every method call keeps it and no
    reachable state of an emitter has a key mapped to an empty array. *)
Theorem reachable_no_empty {World : Type}
    (run : listener → payload → @state World → outcome * @state World) :
  (∀ l data s, no_empty s.2 → no_empty (run l data s).2.2) →
  (∀ c s, no_empty s.2 → no_empty (perform run c s).2)
  ∧ (∀ s, reachable run s → no_empty s.2).
Proof.
  intros Hrun. split.
  - intros c s. by apply no_empty_perform.
  - induction 1 as [w|c s _ IH|w s _ IH].
    + apply no_empty_empty.
    + by apply no_empty_perform.
    + done.
Qed.

Lemma reachable_no_empty_witness :
  (∀ l data s, no_empty s.2 → no_empty (quiet l data s).2.2)
  ∧ no_empty
      (perform quiet (CallEmit "foo" [])
         (perform quiet (CallOn "bar" 2%nat no_options)
            (perform quiet (CallOnce "foo" 1%nat no_options) ((), ∅)))).2.
Proof.
  split; [intros l data s Hs; exact Hs|].
  apply (reachable_no_empty quiet); [intros l data s Hs; exact Hs|].
  apply reachable_call, reachable_call, reachable_call, reachable_new.
Defined.

(** * Further properties of the methods *)

(** ** Events are independent *)

(** X1: A registration, a targeted removal or a removal of all listeners of the
    event [ev] leaves the array of every other event as it is. *)
Theorem other_events_untouched (ev ev' : string) l c uo (t : evinfo) :
  ev ≠ ev' →
  on ev l uo t !! ev' = t !! ev'
  ∧ prependOn ev l uo t !! ev' = t !! ev'
  ∧ once ev l uo t !! ev' = t !! ev'
  ∧ once_promise ev l uo t !! ev' = t !! ev'
  ∧ prependOnce ev l uo t !! ev' = t !! ev'
  ∧ prependOnce_promise ev l uo t !! ev' = t !! ev'
  ∧ off (Some ev) (Some c) t !! ev' = t !! ev'
  ∧ off (Some ev) None t !! ev' = t !! ev'.
Proof.
  intros Hne. split_and!.
  - by apply lookup_append_entry_ne.
  - by apply lookup_prepend_entry_ne.
  - by apply lookup_append_entry_ne.
  - by apply lookup_append_entry_ne.
  - by apply lookup_prepend_entry_ne.
  - by apply lookup_prepend_entry_ne.
  - by apply lookup_off_listener_ne.
  - by apply lookup_off_event_ne.
Qed.

Lemma other_events_untouched_witness :
  "foo" ≠ "bar"
  ∧ on "foo" 4%nat no_options two_events !! "bar" = two_events !! "bar"
  ∧ prependOn "foo" 4%nat no_options two_events !! "bar" = two_events !! "bar"
  ∧ once "foo" 4%nat no_options two_events !! "bar" = two_events !! "bar"
  ∧ once_promise "foo" 4%nat no_options two_events !! "bar" = two_events !! "bar"
  ∧ prependOnce "foo" 4%nat no_options two_events !! "bar" = two_events !! "bar"
  ∧ prependOnce_promise "foo" 4%nat no_options two_events !! "bar" = two_events !! "bar"
  ∧ off (Some "foo") (Some 1%nat) two_events !! "bar" = two_events !! "bar"
  ∧ off (Some "foo") None two_events !! "bar" = two_events !! "bar".
Proof.
  split; [discriminate|].
  apply (other_events_untouched "foo" "bar" 4%nat 1%nat no_options two_events).
  discriminate.
Defined.

(** ** Targeted removal, entry by entry *)

Lemma store_lookup_same (ev : string) (cbs : list entry) (t : evinfo) :
  t !! ev = Some cbs → cbs ≠ [] → store ev cbs t = t.
Proof.
  intros Ht Hne. unfold store. destruct cbs; [done|]. by apply insert_id.
Qed.

(** X2: [off(ev, c)] when an entry holds [c]: the first entry that holds [c]
    is taken out, protected or not, the other entries keep their order, and
    the key is deleted when that entry was the only one. *)
Theorem off_found_removes_first_holder (ev : string) c (pre post : list entry)
    (x : entry) (t : evinfo) :
  t !! ev = Some (pre ++ x :: post) → c ∉ pre.*1 → x.1 = c →
  off (Some ev) (Some c) t = store ev (pre ++ post) t
  ∧ entries ev (off (Some ev) (Some c) t) = pre ++ post
  ∧ (off (Some ev) (Some c) t !! ev = None ↔ pre ++ post = []).
Proof.
  intros Ht Hpre Hx.
  assert (splice_listener c (pre ++ x :: post) = pre ++ post) as Hsp.
  { rewrite splice_listener_found, remove_first_at; [done..|].
    rewrite fmap_app, fmap_cons, elem_of_app, elem_of_cons. right. by left. }
  assert (off (Some ev) (Some c) t = store ev (pre ++ post) t) as ->.
  { unfold off, off_listener. by rewrite Ht, Hsp. }
  split_and!; [done|apply entries_store|].
  rewrite lookup_store. by destruct (pre ++ post).
Qed.

Lemma off_found_removes_first_holder_witness :
  plain_then_protected !! "x"
  = Some ([] ++ (1%nat, Options false None None)
             :: [(1%nat, Options false (Some true) None)])
  ∧ (1%nat ∉ ([] : list entry).*1)
  ∧ (1%nat, Options false None None).1 = 1%nat
  ∧ off (Some "x") (Some 1%nat) plain_then_protected
    = store "x" ([] ++ [(1%nat, Options false (Some true) None)]) plain_then_protected
  ∧ entries "x" (off (Some "x") (Some 1%nat) plain_then_protected)
    = [] ++ [(1%nat, Options false (Some true) None)]
  ∧ (off (Some "x") (Some 1%nat) plain_then_protected !! "x" = None
     ↔ [] ++ [(1%nat, Options false (Some true) None)] = []).
Proof.
  split; [reflexivity|]. split; [apply not_elem_of_nil|]. split; [reflexivity|].
  apply (off_found_removes_first_holder "x" 1%nat []
           [(1%nat, Options false (Some true) None)]
           (1%nat, Options false None None) plain_then_protected).
  - reflexivity.
  - apply not_elem_of_nil.
  - reflexivity.
Defined.

(** X3: [off(ev, c)] when no entry of a non-empty array holds [c]:
    [findIndex] is [-1], [splice(-1, 1)] takes out the last entry, and the
    key is deleted when that entry was the only one. *)
Theorem unmatched_off_takes_last_entry (ev : string) c (cbs : list entry)
    (x : entry) (t : evinfo) :
  t !! ev = Some (cbs ++ [x]) → c ∉ (cbs ++ [x]).*1 →
  off (Some ev) (Some c) t = store ev cbs t
  ∧ entries ev (off (Some ev) (Some c) t) = cbs
  ∧ (off (Some ev) (Some c) t !! ev = None ↔ cbs = []).
Proof.
  intros Ht Hc. rewrite (off_listener_absent ev c cbs x t Ht Hc).
  split_and!; [done|apply entries_store|].
  rewrite lookup_store. by destruct cbs.
Qed.

Lemma unmatched_off_takes_last_entry_witness :
  three_listeners !! "foo"
  = Some ([(1%nat, Options false None None); (2%nat, Options false None None)]
          ++ [(3%nat, Options false None None)])
  ∧ (7%nat ∉ ([(1%nat, Options false None None); (2%nat, Options false None None)]
              ++ [(3%nat, Options false None None)]).*1)
  ∧ off (Some "foo") (Some 7%nat) three_listeners
    = store "foo" [(1%nat, Options false None None); (2%nat, Options false None None)]
        three_listeners
  ∧ entries "foo" (off (Some "foo") (Some 7%nat) three_listeners)
    = [(1%nat, Options false None None); (2%nat, Options false None None)]
  ∧ (off (Some "foo") (Some 7%nat) three_listeners !! "foo" = None
     ↔ [(1%nat, Options false None None); (2%nat, Options false None None)] = []).
Proof.
  assert (7%nat ∉ ([(1%nat, Options false None None); (2%nat, Options false None None)]
                   ++ [(3%nat, Options false None None)]).*1) as Hnot.
  { vm_compute. intros Hin. repeat (apply elem_of_cons in Hin as [Hin|Hin]; [discriminate|]).
    by apply elem_of_nil in Hin. }
  split; [reflexivity|]. split; [exact Hnot|].
  apply (unmatched_off_takes_last_entry "foo" 7%nat
           [(1%nat, Options false None None); (2%nat, Options false None None)]
           (3%nat, Options false None None) three_listeners).
  - reflexivity.
  - exact Hnot.
Defined.

Lemma length_remove_first c (cbs : list entry) :
  c ∈ cbs.*1 → S (length (remove_first c cbs)) = length cbs.
Proof.
  intros (pre & x & post & -> & Hpre & Hx)%first_holding.
  rewrite remove_first_at by done. rewrite !length_app. cbn [length]. lia.
Qed.

(** X4: [off(ev, c)] on an event that has listeners takes out exactly one
    entry, whether an entry holds [c] or not. *)
Theorem off_targeted_takes_one (ev : string) c (t : evinfo) :
  entries ev t ≠ [] →
  S (length (entries ev (off (Some ev) (Some c) t))) = length (entries ev t).
Proof.
  intros Hne. rewrite entries_off_targeted.
  destruct (decide (c ∈ (entries ev t).*1)) as [Hin|Hnin].
  - rewrite splice_listener_found by done. by apply length_remove_first.
  - destruct (entries ev t) as [|e0 l0] using rev_ind; [done|].
    rewrite splice_listener_absent by done. rewrite length_app. cbn [length]. lia.
Qed.

Lemma off_targeted_takes_one_witness :
  entries "foo" three_listeners ≠ []
  ∧ S (length (entries "foo" (off (Some "foo") (Some 2%nat) three_listeners)))
    = length (entries "foo" three_listeners).
Proof.
  split; [discriminate|].
  apply (off_targeted_takes_one "foo" 2%nat three_listeners). discriminate.
Defined.

(** ** Untargeted removal, in general and with distinct listeners *)

Lemma foldl_remove_first_cons_ne (e : entry) (td : list listener) (acc : list entry) :
  e.1 ∉ td →
  foldl (λ acc cb, remove_first cb acc) (e :: acc) td
  = e :: foldl (λ acc cb, remove_first cb acc) acc td.
Proof.
  revert acc. induction td as [|c td IH]; intros acc Hnot; cbn [foldl]; [done|].
  apply not_elem_of_cons in Hnot as [Hne Hnot].
  cbn [remove_first].
  assert (holds c e = false) as -> by by apply holds_false.
  by apply IH.
Qed.

(** With distinct listeners, removing the listeners of the entries that
    satisfy [P], first holder first, leaves the entries that do not. *)
Lemma foldl_remove_first_filter (P : entry → Prop) `{∀ e, Decision (P e)}
    (cbs : list entry) :
  NoDup cbs.*1 →
  foldl (λ acc cb, remove_first cb acc) cbs (filter P cbs).*1
  = filter (λ e, ¬ P e) cbs.
Proof.
  induction cbs as [|e cbs IH]; [done|].
  rewrite fmap_cons, NoDup_cons. intros [Hfresh Hnd].
  rewrite !filter_cons. destruct (decide (P e)) as [HP|HP].
  - rewrite decide_False by (intros Hn; by apply Hn).
    rewrite fmap_cons. cbn [foldl remove_first].
    assert (holds e.1 e = true) as -> by by apply holds_true.
    by apply IH.
  - rewrite decide_True by done.
    rewrite foldl_remove_first_cons_ne.
    + by rewrite IH.
    + intros [e' [He' [_ Hin]%list_elem_of_filter]]%list_elem_of_fmap.
      apply Hfresh. rewrite He'. by apply list_elem_of_fmap_2.
Qed.

Lemma length_foldl_remove_first (td : list listener) (cbs : list entry) :
  (∀ c, (occurrences c td ≤ count_holding c cbs)%nat) →
  (length (foldl (λ acc cb, remove_first cb acc) cbs td) + length td)%nat
  = length cbs.
Proof.
  revert cbs. induction td as [|c td IH]; intros cbs Hle; cbn [foldl length]; [lia|].
  assert (c ∈ cbs.*1) as Hc.
  { destruct (decide (c ∈ cbs.*1)) as [|Hn]; [done|].
    apply count_holding_zero in Hn. specialize (Hle c).
    rewrite occurrences_cons, decide_True in Hle by done. lia. }
  rewrite <- (length_remove_first c cbs Hc).
  rewrite <- (IH (remove_first c cbs)); [lia|].
  intros c'. specialize (Hle c'). rewrite occurrences_cons in Hle.
  destruct (decide (c = c')) as [<-|Hne].
  - rewrite (count_holding_remove_first c cbs) in Hle by done. lia.
  - rewrite count_holding_remove_first_ne by done. lia.
Qed.

Lemma length_todel (cbs : list entry) :
  (length (filter (λ e : entry, truthy (opt_protect e.2) = true) cbs)
   + length (todel cbs))%nat = length cbs.
Proof.
  induction cbs as [|e cbs IH]; [done|].
  rewrite todel_cons, filter_cons.
  destruct (truthy (opt_protect e.2)).
  - rewrite decide_True by done. cbn [length]. lia.
  - rewrite decide_False by done. cbn [length]. lia.
Qed.

(** X5: [off(ev)] takes out as many entries as there are unprotected ones:
    the number of entries left is the number of protected entries, also
    when entries share a listener. *)
Theorem off_event_leaves_protected_count (ev : string) (t : evinfo) :
  length (entries ev (off (Some ev) None t))
  = length (filter (λ e : entry, truthy (opt_protect e.2) = true) (entries ev t)).
Proof.
  unfold off. rewrite entries_off_event.
  pose proof (length_foldl_remove_first (todel (entries ev t)) (entries ev t)
                (λ c, occurrences_todel c (entries ev t))) as Hlen.
  pose proof (length_todel (entries ev t)) as Htd. lia.
Qed.

(** X6: When no two entries of [ev] hold the same listener, [off(ev)] leaves
    exactly the protected entries, in their order. *)
Theorem off_event_distinct_listeners (ev : string) (t : evinfo) :
  NoDup (entries ev t).*1 →
  entries ev (off (Some ev) None t)
  = filter (λ e : entry, truthy (opt_protect e.2) = true) (entries ev t).
Proof.
  intros Hnd. unfold off. rewrite entries_off_event. unfold todel.
  rewrite foldl_remove_first_filter by done.
  apply list_filter_iff. intros e.
  destruct (truthy (opt_protect e.2)); cbn; naive_solver.
Qed.

Lemma off_event_distinct_listeners_witness :
  NoDup (entries "x" mixed_listeners).*1
  ∧ entries "x" (off (Some "x") None mixed_listeners)
    = filter (λ e : entry, truthy (opt_protect e.2) = true)
        (entries "x" mixed_listeners).
Proof.
  assert (NoDup (entries "x" mixed_listeners).*1) as Hnd.
  { apply (bool_decide_unpack _). vm_compute. exact I. }
  split; [exact Hnd|].
  apply (off_event_distinct_listeners "x" mixed_listeners Hnd).
Defined.

(** X7: [off()] does at every key what [off(ev)] does there, in whatever order
    [Object.keys] lists the keys. *)
Theorem off_all_is_off_event_everywhere (ev : string) (t : evinfo) :
  off None None t !! ev = off (Some ev) None t !! ev.
Proof. apply lookup_off_all. Qed.

Lemma lookup_off_event_nil (ev : string) (t : evinfo) :
  entries ev (off_event ev t) = [] → off_event ev t !! ev = None.
Proof.
  unfold off_event. destruct (t !! ev) as [cbs|] eqn:Ht; [|done].
  rewrite entries_store, lookup_store. by intros ->.
Qed.

Lemma off_event_protected_id (ev : string) (t : evinfo) :
  no_empty t →
  (∀ e, e ∈ entries ev t → truthy (opt_protect e.2) = true) →
  off_event ev t = t.
Proof.
  intros Hinv Hprot. unfold off_event.
  destruct (t !! ev) as [cbs|] eqn:Ht; [|done].
  assert (entries ev t = cbs) as Hent by (unfold entries; by rewrite Ht).
  rewrite todel_protected.
  - cbn [foldl]. apply store_lookup_same; [done|]. by apply (Hinv ev).
  - apply Forall_forall. intros e He. apply Hprot. by rewrite Hent.
Qed.

(** X8: On a table whose entries are all protected, [off(ev)] and [off()]
    change nothing. *)
Theorem off_keeps_protected_table (t : evinfo) :
  no_empty t →
  (∀ ev e, e ∈ entries ev t → truthy (opt_protect e.2) = true) →
  off None None t = t ∧ ∀ ev, off (Some ev) None t = t.
Proof.
  intros Hinv Hprot. split.
  - apply map_eq. intros ev. rewrite lookup_off_all.
    rewrite off_event_protected_id; [done..|]. apply Hprot.
  - intros ev. apply off_event_protected_id; [done|]. apply Hprot.
Qed.

Lemma entries_all_protected (ev : string) (e : entry) :
  e ∈ entries ev all_protected → truthy (opt_protect e.2) = true.
Proof.
  unfold entries, all_protected, once, on.
  destruct (decide (ev = "bar")) as [->|Hbar].
  - vm_compute. intros [->|[]%elem_of_nil]%elem_of_cons. reflexivity.
  - rewrite lookup_append_entry_ne by done.
    destruct (decide (ev = "foo")) as [->|Hfoo].
    + vm_compute. intros [->|[]%elem_of_nil]%elem_of_cons. reflexivity.
    + rewrite lookup_append_entry_ne by done. rewrite lookup_empty.
      by intros []%elem_of_nil.
Defined.

Lemma no_empty_all_protected : no_empty all_protected.
Proof.
  unfold all_protected, once, on.
  apply no_empty_append_entry, no_empty_append_entry, no_empty_empty.
Defined.

Lemma off_keeps_protected_table_witness :
  no_empty all_protected
  ∧ (∀ ev e, e ∈ entries ev all_protected → truthy (opt_protect e.2) = true)
  ∧ off None None all_protected = all_protected
  ∧ ∀ ev, off (Some ev) None all_protected = all_protected.
Proof.
  split; [exact no_empty_all_protected|]. split; [exact entries_all_protected|].
  apply (off_keeps_protected_table all_protected).
  - exact no_empty_all_protected.
  - exact entries_all_protected.
Defined.

(** X9: On a table whose entries are all unprotected, [off()] leaves the
    empty table: every array is emptied and every key deleted. *)
Theorem off_all_clears_unprotected (t : evinfo) :
  (∀ ev e, e ∈ entries ev t → truthy (opt_protect e.2) = false) →
  off None None t = ∅.
Proof.
  intros Hunprot. apply map_eq. intros ev.
  rewrite lookup_off_all, lookup_empty. apply lookup_off_event_nil.
  apply length_zero_iff_nil.
  pose proof (length_foldl_remove_first (todel (entries ev t)) (entries ev t)
                (λ c, occurrences_todel c (entries ev t))) as Hlen.
  pose proof (length_todel (entries ev t)) as Htd.
  rewrite entries_off_event.
  assert (filter (λ e : entry, truthy (opt_protect e.2) = true) (entries ev t) = [])
    as Hnone.
  { apply length_zero_iff_nil. apply Nat.le_0_r.
    destruct (filter _ (entries ev t)) as [|e l] eqn:Hf; [done|].
    assert (e ∈ filter (λ e : entry, truthy (opt_protect e.2) = true) (entries ev t))
      as [Hp He]%list_elem_of_filter by (rewrite Hf; apply elem_of_cons; by left).
    apply Hunprot in He. congruence. }
  rewrite Hnone in Htd. cbn [length] in Htd. lia.
Qed.

Lemma entries_three_listeners (ev : string) (e : entry) :
  e ∈ entries ev three_listeners → truthy (opt_protect e.2) = false.
Proof.
  unfold entries, three_listeners, on.
  destruct (decide (ev = "foo")) as [->|Hfoo].
  - vm_compute. intros Hin.
    repeat (apply elem_of_cons in Hin as [->|Hin]; [reflexivity|]).
    by apply elem_of_nil in Hin.
  - rewrite !lookup_append_entry_ne by done. rewrite lookup_empty.
    by intros []%elem_of_nil.
Defined.

Lemma off_all_clears_unprotected_witness :
  (∀ ev e, e ∈ entries ev three_listeners → truthy (opt_protect e.2) = false)
  ∧ off None None three_listeners = ∅.
Proof.
  split; [exact entries_three_listeners|].
  apply (off_all_clears_unprotected three_listeners entries_three_listeners).
Defined.

(** ** Registering, then removing *)

Lemma off_listener_prepend_entry (ev : string) (e : entry) (t : evinfo) :
  no_empty t → off_listener ev e.1 (prepend_entry ev e t) = t.
Proof.
  intros Hinv. unfold off_listener. rewrite lookup_prepend_entry.
  assert (splice_listener e.1 (e :: entries ev t) = entries ev t) as ->.
  { rewrite splice_listener_found by (rewrite fmap_cons; apply elem_of_cons; by left).
    by apply (remove_first_at e.1 [] (entries ev t) e); [apply not_elem_of_nil|]. }
  unfold prepend_entry, unshift.
  destruct (t !! ev) as [info|] eqn:Ht.
  - assert (entries ev t = info) as -> by (unfold entries; by rewrite Ht).
    assert (info ≠ []) as Hne by by apply (Hinv ev).
    destruct info as [|e0 info]; [done|]. cbn [store].
    rewrite insert_insert_eq. by apply insert_id.
  - assert (entries ev t = []) as -> by (unfold entries; by rewrite Ht).
    cbn [store]. by apply delete_insert_id.
Qed.

Lemma off_listener_append_entry (ev : string) (e : entry) (t : evinfo) :
  no_empty t → e.1 ∉ (entries ev t).*1 →
  off_listener ev e.1 (append_entry ev e t) = t.
Proof.
  intros Hinv Hfresh. unfold off_listener. rewrite lookup_append_entry.
  assert (splice_listener e.1 (entries ev t ++ [e]) = entries ev t) as ->.
  { rewrite splice_listener_found
      by (rewrite fmap_app, elem_of_app; right; apply elem_of_cons; by left).
    rewrite (remove_first_at e.1 (entries ev t) [] e) by done.
    apply app_nil_r. }
  unfold append_entry, push.
  destruct (t !! ev) as [info|] eqn:Ht.
  - assert (entries ev t = info) as -> by (unfold entries; by rewrite Ht).
    assert (info ≠ []) as Hne by by apply (Hinv ev).
    destruct info as [|e0 info]; [done|]. cbn [store].
    rewrite insert_insert_eq. by apply insert_id.
  - assert (entries ev t = []) as -> by (unfold entries; by rewrite Ht).
    cbn [store]. by apply delete_insert_id.
Qed.

(** X10: Prepending a listener and removing it with [off(ev, l)] gives the
    table back, whatever else the event holds: the new entry is the first
    one that holds [l]. *)
Theorem prepend_then_off_round_trip (ev : string) l uo (t : evinfo) :
  no_empty t →
  off (Some ev) (Some l) (prependOn ev l uo t) = t
  ∧ off (Some ev) (Some l) (prependOnce ev l uo t) = t
  ∧ off (Some ev) (Some l) (prependOnce_promise ev l uo t) = t.
Proof.
  intros Hinv. unfold off, prependOn, prependOnce, prependOnce_promise.
  split_and!.
  - by apply (off_listener_prepend_entry ev (l, spread_options false uo)).
  - by apply (off_listener_prepend_entry ev (l, spread_options true uo)).
  - by apply (off_listener_prepend_entry ev (l, promise_options uo)).
Qed.

Lemma no_empty_two_events : no_empty two_events.
Proof.
  unfold two_events, on.
  apply no_empty_append_entry, no_empty_append_entry, no_empty_append_entry,
    no_empty_empty.
Defined.

Lemma prepend_then_off_round_trip_witness :
  no_empty two_events
  ∧ off (Some "foo") (Some 1%nat) (prependOn "foo" 1%nat protect_true two_events)
    = two_events
  ∧ off (Some "foo") (Some 1%nat) (prependOnce "foo" 1%nat protect_true two_events)
    = two_events
  ∧ off (Some "foo") (Some 1%nat)
      (prependOnce_promise "foo" 1%nat protect_true two_events)
    = two_events.
Proof.
  split; [exact no_empty_two_events|].
  apply (prepend_then_off_round_trip "foo" 1%nat protect_true two_events).
  exact no_empty_two_events.
Defined.

(** X11: Appending a listener that the event does not hold yet and removing it
    with [off(ev, l)] gives the table back. *)
Theorem append_then_off_round_trip (ev : string) l uo (t : evinfo) :
  no_empty t → l ∉ (entries ev t).*1 →
  off (Some ev) (Some l) (on ev l uo t) = t
  ∧ off (Some ev) (Some l) (once ev l uo t) = t
  ∧ off (Some ev) (Some l) (once_promise ev l uo t) = t.
Proof.
  intros Hinv Hfresh. unfold off, on, once, once_promise.
  split_and!.
  - by apply (off_listener_append_entry ev (l, spread_options false uo)).
  - by apply (off_listener_append_entry ev (l, spread_options true uo)).
  - by apply (off_listener_append_entry ev (l, promise_options uo)).
Qed.

Lemma append_then_off_round_trip_witness :
  no_empty two_events
  ∧ (4%nat ∉ (entries "foo" two_events).*1)
  ∧ off (Some "foo") (Some 4%nat) (on "foo" 4%nat no_options two_events) = two_events
  ∧ off (Some "foo") (Some 4%nat) (once "foo" 4%nat no_options two_events) = two_events
  ∧ off (Some "foo") (Some 4%nat) (once_promise "foo" 4%nat no_options two_events)
    = two_events.
Proof.
  assert (4%nat ∉ (entries "foo" two_events).*1) as Hfresh.
  { vm_compute. intros Hin.
    repeat (apply elem_of_cons in Hin as [Hin|Hin]; [discriminate|]).
    by apply elem_of_nil in Hin. }
  split; [exact no_empty_two_events|]. split; [exact Hfresh|].
  apply (append_then_off_round_trip "foo" 4%nat no_options two_events).
  - exact no_empty_two_events.
  - exact Hfresh.
Defined.

(** ** Promise entries and untargeted removal *)

(** X12: The entry of a promise, whose shim is a new function object, is kept
    by [off(ev)] and by [off()], whatever [protect] option was passed to
    [once] or [prependOnce]. *)
Theorem promise_entry_survives_untargeted_off (ev : string) shim uo (t : evinfo) :
  shim ∉ (entries ev t).*1 →
  held shim (entries ev (off (Some ev) None (once_promise ev shim uo t)))
  = [(shim, Options true (Some true) (reg_filter uo))]
  ∧ held shim (entries ev (off None None (once_promise ev shim uo t)))
    = [(shim, Options true (Some true) (reg_filter uo))]
  ∧ held shim (entries ev (off (Some ev) None (prependOnce_promise ev shim uo t)))
    = [(shim, Options true (Some true) (reg_filter uo))]
  ∧ held shim (entries ev (off None None (prependOnce_promise ev shim uo t)))
    = [(shim, Options true (Some true) (reg_filter uo))].
Proof.
  intros Hfresh. apply held_nil_iff in Hfresh.
  assert (held shim (entries ev (once_promise ev shim uo t))
          = [(shim, Options true (Some true) (reg_filter uo))]) as Happ.
  { unfold once_promise. rewrite entries_append_entry, held_app, Hfresh.
    rewrite held_cons, decide_True by done. done. }
  assert (held shim (entries ev (prependOnce_promise ev shim uo t))
          = [(shim, Options true (Some true) (reg_filter uo))]) as Hpre.
  { unfold prependOnce_promise. rewrite entries_prepend_entry.
    rewrite held_cons, decide_True by done. by rewrite Hfresh. }
  rewrite !entries_off_all. unfold off.
  split_and!; by apply held_off_event_protected.
Qed.

Lemma promise_entry_survives_untargeted_off_witness :
  (9%nat ∉ (entries "foo" three_listeners).*1)
  ∧ held 9%nat (entries "foo"
      (off (Some "foo") None (once_promise "foo" 9%nat protect_false three_listeners)))
    = [(9%nat, Options true (Some true) None)]
  ∧ held 9%nat (entries "foo"
      (off None None (once_promise "foo" 9%nat protect_false three_listeners)))
    = [(9%nat, Options true (Some true) None)]
  ∧ held 9%nat (entries "foo"
      (off (Some "foo") None
         (prependOnce_promise "foo" 9%nat protect_false three_listeners)))
    = [(9%nat, Options true (Some true) None)]
  ∧ held 9%nat (entries "foo"
      (off None None (prependOnce_promise "foo" 9%nat protect_false three_listeners)))
    = [(9%nat, Options true (Some true) None)].
Proof.
  assert (9%nat ∉ (entries "foo" three_listeners).*1) as Hfresh.
  { vm_compute. intros Hin.
    repeat (apply elem_of_cons in Hin as [Hin|Hin]; [discriminate|]).
    by apply elem_of_nil in Hin. }
  split; [exact Hfresh|].
  apply (promise_entry_survives_untargeted_off "foo" 9%nat protect_false
           three_listeners Hfresh).
Defined.

(** ** What [emit] leaves in the table *)

Lemma fired_once_nil data (cbs : list entry) :
  Forall (λ e : entry, opt_once e.2 = true → passes data e.2 = false) cbs →
  fired_once data cbs = [].
Proof.
  induction 1 as [|e cbs He _ IH]; [done|].
  rewrite fired_once_cons, IH.
  destruct (opt_once e.2); [|by rewrite andb_false_r].
  by rewrite He.
Qed.

Section EmitTable.
Context {World : Type}.
Variable run : listener → payload → @state World → outcome * @state World.

Lemma emit_passive_table (ev : string) data s out tr s' :
  passive run →
  emit run ev data s = (out, tr, s') →
  s'.2 = foldl (λ acc cb, off_listener ev cb acc) s.2
           (fired_once data (entries ev s.2)).
Proof.
  intros Hpassive. unfold emit.
  destruct (s.2 !! ev) as [cbs|] eqn:Hs.
  - assert (entries ev s.2 = cbs) as -> by (unfold entries; by rewrite Hs).
    destruct (emit_loop_passive run ev data cbs s Hpassive) as [w ->].
    by intros [= <- <- <-].
  - assert (entries ev s.2 = []) as -> by (unfold entries; by rewrite Hs).
    by intros [= <- <- <-].
Qed.

(** X13: With listeners that return and leave the table alone, [emit(ev)]
    changes the table at [ev] only. *)
Theorem emit_other_events_untouched (ev ev' : string) data s out tr s' :
  passive run → ev ≠ ev' →
  emit run ev data s = (out, tr, s') →
  s'.2 !! ev' = s.2 !! ev'.
Proof.
  intros Hpassive Hne Hemit.
  rewrite (emit_passive_table ev data s out tr s' Hpassive Hemit).
  by apply lookup_foldl_off_listener_ne.
Qed.

(** X14: With listeners that return and leave the table alone, an [emit]
    in which no [once] entry accepts the
    payload calls the firing listeners and leaves the whole table as it
    was: listeners registered by [on] persist, and a payload that a filter
    rejects does not use up a [once] entry. *)
Theorem emit_without_once_firing (ev : string) data s out tr s' :
  passive run →
  Forall (λ e : entry, opt_once e.2 = true → passes data e.2 = false)
    (entries ev s.2) →
  emit run ev data s = (out, tr, s') →
  out = Returned ∧ tr.*1 = firing data (entries ev s.2) ∧ s'.2 = s.2.
Proof.
  intros Hpassive Hnone Hemit.
  destruct (emit_passive run ev data s out tr s' Hpassive Hemit) as (-> & Htr & _).
  split_and!; [done|done|].
  rewrite (emit_passive_table ev data s Returned tr s' Hpassive Hemit).
  by rewrite fired_once_nil.
Qed.

(** X15: With listeners that return and leave the table alone, and no two
    entries of [ev] holding the same
    listener, [emit] takes out exactly the [once] entries whose filter
    accepted the payload and keeps the others in their order. *)
Theorem emit_removes_fired_once (ev : string) data s out tr s' :
  passive run →
  NoDup (entries ev s.2).*1 →
  emit run ev data s = (out, tr, s') →
  entries ev s'.2
  = filter (λ e : entry, ¬ (passes data e.2 = true ∧ opt_once e.2 = true))
      (entries ev s.2).
Proof.
  intros Hpassive Hnd Hemit.
  destruct (emit_passive run ev data s out tr s' Hpassive Hemit) as (_ & _ & ->).
  unfold fired_once. by apply foldl_remove_first_filter.
Qed.
End EmitTable.

Lemma emit_other_events_untouched_witness :
  passive quiet
  ∧ "bar" ≠ "foo"
  ∧ emit quiet "bar" [] ((), all_protected)
    = (Returned, [(2%nat, Returned)], ((), on "foo" 1%nat protect_true ∅))
  ∧ ((), on "foo" 1%nat protect_true ∅).2 !! "foo" = ((), all_protected).2 !! "foo".
Proof.
  split; [exact passive_quiet|]. split; [discriminate|].
  split; [vm_compute; reflexivity|].
  apply (emit_other_events_untouched quiet "bar" "foo" [] ((), all_protected)
           Returned [(2%nat, Returned)] ((), on "foo" 1%nat protect_true ∅)).
  - exact passive_quiet.
  - discriminate.
  - vm_compute; reflexivity.
Defined.

Lemma emit_without_once_firing_witness :
  passive quiet
  ∧ Forall (λ e : entry, opt_once e.2 = true → passes [VStr "baz"] e.2 = false)
      (entries "x" ((), filtered_once).2)
  ∧ emit quiet "x" [VStr "baz"] ((), filtered_once)
    = (Returned, [(2%nat, Returned); (3%nat, Returned)], ((), filtered_once))
  ∧ Returned = Returned
  ∧ [(2%nat, Returned); (3%nat, Returned)].*1
    = firing [VStr "baz"] (entries "x" ((), filtered_once).2)
  ∧ ((), filtered_once).2 = ((), filtered_once).2.
Proof.
  assert (Forall (λ e : entry, opt_once e.2 = true → passes [VStr "baz"] e.2 = false)
            (entries "x" ((), filtered_once).2)) as Hnone.
  { vm_compute. repeat constructor; intros; try reflexivity; discriminate. }
  split; [exact passive_quiet|]. split; [exact Hnone|].
  split; [vm_compute; reflexivity|].
  apply (emit_without_once_firing quiet "x" [VStr "baz"] ((), filtered_once)
           Returned [(2%nat, Returned); (3%nat, Returned)] ((), filtered_once)).
  - exact passive_quiet.
  - exact Hnone.
  - vm_compute; reflexivity.
Defined.

Lemma emit_removes_fired_once_witness :
  passive quiet
  ∧ NoDup (entries "x" ((), filtered_once).2).*1
  ∧ emit quiet "x" [VStr "bar"] ((), filtered_once)
    = (Returned, [(2%nat, Returned); (1%nat, Returned); (3%nat, Returned)],
       ((), on "x" 3%nat no_options (on "x" 2%nat no_options ∅)))
  ∧ entries "x" ((), on "x" 3%nat no_options (on "x" 2%nat no_options ∅)).2
    = filter (λ e : entry, ¬ (passes [VStr "bar"] e.2 = true ∧ opt_once e.2 = true))
        (entries "x" ((), filtered_once).2).
Proof.
  assert (NoDup (entries "x" ((), filtered_once).2).*1) as Hnd.
  { apply (bool_decide_unpack _). vm_compute. exact I. }
  split; [exact passive_quiet|]. split; [exact Hnd|].
  split; [vm_compute; reflexivity|].
  apply (emit_removes_fired_once quiet "x" [VStr "bar"] ((), filtered_once)
           Returned [(2%nat, Returned); (1%nat, Returned); (3%nat, Returned)]
           ((), on "x" 3%nat no_options (on "x" 2%nat no_options ∅))).
  - exact passive_quiet.
  - exact Hnd.
  - vm_compute; reflexivity.
Defined.

(** ** The order of the entries after calls of the four methods *)

(** X16: After any sequence of calls of [on], [prependOn], [once] and
    [prependOnce] for one event, its array holds the entries of the
    prepending calls, last call first, then the entries it had, then the
    entries of the appending calls, first call first; each entry has the
    [once] flag of its method and the caller's [protect] and [filter]. *)
Theorem registration_order (ev : string) (calls : list method_call) (t : evinfo) :
  entries ev (foldl (register_call ev) t calls)
  = reverse (stored_entry <$> filter (λ r : method_call, method_prepends r.1.1 = true) calls)
    ++ entries ev t
    ++ (stored_entry <$> filter (λ r : method_call, method_prepends r.1.1 = false) calls).
Proof.
  revert t. induction calls as [|[[m l] uo] calls IH]; intros t; cbn [foldl].
  - by rewrite !filter_nil, !fmap_nil, reverse_nil, app_nil_r.
  - rewrite IH, !filter_cons. cbn [fst snd].
    unfold register_call, register_by, stored_entry at 1 3. cbn [fst snd].
    destruct m; cbn [method_prepends method_once].
    + rewrite decide_False, decide_True by done. rewrite fmap_cons.
      unfold on. rewrite entries_append_entry.
      unfold stored_entry at 2. cbn [fst snd method_once].
      by rewrite <- !app_assoc.
    + rewrite decide_True, decide_False by done. rewrite fmap_cons, reverse_cons.
      unfold prependOn. rewrite entries_prepend_entry.
      unfold stored_entry at 2. cbn [fst snd method_once].
      by rewrite <- !app_assoc.
    + rewrite decide_False, decide_True by done. rewrite fmap_cons.
      unfold once. rewrite entries_append_entry.
      unfold stored_entry at 2. cbn [fst snd method_once].
      by rewrite <- !app_assoc.
    + rewrite decide_True, decide_False by done. rewrite fmap_cons, reverse_cons.
      unfold prependOnce. rewrite entries_prepend_entry.
      unfold stored_entry at 2. cbn [fst snd method_once].
      by rewrite <- !app_assoc.
Qed.

(** The test "prepended on/once listeners are ordered". *)
Example prepended_listeners_ordered :
  (emit quiet "foo" [] ((), foldl (register_call "foo") ∅ ordering_calls)).1.2.*1
  = [1; 2; 3; 4; 5; 6; 7; 8]%nat.
Proof. vm_compute; reflexivity. Qed.
